(** * clawignore: path selection and mount-plan compilation

    A shallow embedding of [src/browser.ts], [src/docker-generator.ts] and
    the pattern categoriser of the ignore-list writer, followed by the
    properties of the specification that concern them.

    Strings are the Standard Library's [string]; a character stands for one
    code unit below 256 (Latin-1), which is where [toLowerCase] and [trim]
    are spelled out.  JavaScript's [Set<string>] keeps insertion order, and
    the browser spreads it into the array it returns, so it is a
    duplicate-free list here.  The file system, Node's [path] helpers and
    [localeCompare] are arguments of the functions that call them. *)

From Stdlib Require Import String Ascii List Bool Arith ZArith Lia.
From Stdlib Require Import Sorting.Sorted Sorting.Permutation Structures.OrderedTypeEx.
Import ListNotations.
Open Scope string_scope.

(** ** JavaScript string primitives *)

Module JsString.

Definition slash : ascii := "/"%char.
Definition LF : ascii := "010"%char.

(** [s.startsWith(pre)] *)
Definition startsWith (s pre : string) : bool := String.prefix pre s.

(** [s.endsWith(suf)] *)
Definition endsWith (s suf : string) : bool :=
(String.length suf <=? String.length s)%nat &&
String.eqb (substring (String.length s - String.length suf) (String.length suf) s) suf.

(** [s.includes(sub)] *)
Fixpoint includes (s sub : string) : bool :=
String.prefix sub s ||
match s with
| EmptyString => false
| String _ s' => includes s' sub
end.

(** [c.toLowerCase()] on one Latin-1 code unit: A-Z, and the accented
    capitals 192-222 except the multiplication sign 215. *)
Definition lowerChar (c : ascii) : ascii :=
let n := nat_of_ascii c in
if (((65 <=? n) && (n <=? 90)) || ((192 <=? n) && (n <=? 222) && negb (n =? 215)))%nat
then ascii_of_nat (n + 32) else c.

(** [s.toLowerCase()] *)
Fixpoint toLowerCase (s : string) : string :=
match s with
| EmptyString => EmptyString
| String c s' => String (lowerChar c) (toLowerCase s')
end.

(** White space and line terminators below 256, as [trim] strips them. *)
Definition isWhite (c : ascii) : bool :=
let n := nat_of_ascii c in
(((9 <=? n) && (n <=? 13)) || (n =? 32) || (n =? 160))%nat.

Fixpoint trimStart (s : string) : string :=
match s with
| EmptyString => EmptyString
| String c s' => if isWhite c then trimStart s' else s
end.

(** Strips trailing white space: a character is dropped when it is white
    and everything after it has been dropped. *)
Fixpoint trimEnd (s : string) : string :=
match s with
| EmptyString => EmptyString
| String c s' =>
    match trimEnd s' with
    | EmptyString => if isWhite c then EmptyString else String c EmptyString
    | t => String c t
    end
end.

(** [s.trim()] *)
Definition trim (s : string) : string := trimEnd (trimStart s).

(** [s.split(sep)] for a one-character separator; the empty string splits
    into one empty part. *)
Fixpoint split (sep : ascii) (s : string) : list string :=
match s with
| EmptyString => [EmptyString]
| String c s' =>
    if Ascii.eqb c sep then EmptyString :: split sep s'
    else match split sep s' with
         | h :: t => String c h :: t
         | [] => [String c EmptyString]
         end
end.

(** [parts.join(sep)] *)
Fixpoint join (sep : ascii) (parts : list string) : string :=
match parts with
| [] => EmptyString
| [x] => x
| x :: rest => x ++ String sep (join sep rest)
end.

(** [sep] occurs nowhere in [s]. *)
Fixpoint lacks (sep : ascii) (s : string) : bool :=
match s with
| EmptyString => true
| String c s' => negb (Ascii.eqb c sep) && lacks sep s'
end.

(** Truthiness of a string: non-empty. *)
Definition truthy (s : string) : bool :=
match s with EmptyString => false | _ => true end.

End JsString.

(** ** [Set<string>]: membership with insertion order *)

Module JsSet.

Definition t := list string.

Definition has (s : t) (x : string) : bool := existsb (String.eqb x) s.

Definition add (x : string) (s : t) : t := if has s x then s else (s ++ [x])%list.

Definition delete (x : string) (s : t) : t :=
filter (fun y => negb (String.eqb x y)) s.

Definition ofList (l : list string) : t := fold_left (fun s x => add x s) l [].

Definition size (s : t) : nat := List.length s.

End JsSet.

Import JsString.

(** ** Node's [path] module *)

Module Path.

Fixpoint dropWhile (f : ascii -> bool) (l : list ascii) : list ascii :=
match l with
| [] => []
| c :: l' => if f c then dropWhile f l' else l
end.

Fixpoint takeWhile (f : ascii -> bool) (l : list ascii) : list ascii :=
match l with
| [] => []
| c :: l' => if f c then c :: takeWhile f l' else []
end.

Definition isSlash (c : ascii) : bool := Ascii.eqb c slash.

(** POSIX [basename(p)]: scanning from the end, trailing separators are
    skipped and the component before the next separator is returned. *)
Definition basename (p : string) : string :=
string_of_list_ascii
  (rev (takeWhile (fun c => negb (isSlash c))
          (dropWhile isSlash (rev (list_ascii_of_string p))))).

End Path.

(** ** src/browser.ts *)

Module Browser.

Definition SYSTEM_HIDDEN : list string :=
[ "Library"; "Applications"; "System"; "Volumes"; "private"; "usr"; "bin";
  "sbin"; "etc"; "var"; "tmp"; "cores"; "opt"; "node_modules"; ".git";
  ".Trash"; ".cache"; ".npm"; ".nvm" ].

Definition SENSITIVE_PATTERNS : list string :=
[ ".env"; ".env.local"; ".env.development"; ".env.production"; ".env.staging";
  ".ssh"; ".aws"; ".gcp"; ".azure"; ".kube"; ".docker"; ".npmrc"; ".pypirc";
  ".netrc"; ".gitconfig"; ".bash_history"; ".zsh_history"; "secrets";
  "private"; "credentials"; ".credentials"; "passwords"; ".passwords" ].

Definition SENSITIVE_EXTENSIONS : list string :=
[ ".pem"; ".key"; ".p12"; ".pfx"; ".jks"; ".keystore" ].

Definition SENSITIVE_KEYWORDS : list string :=
[ "secret"; "credential"; "password"; "private_key"; "privatekey"; "api_key";
  "apikey"; "token" ].

(** [arr.includes(x)] on an array of strings. *)
Definition arrayIncludes (arr : list string) (x : string) : bool :=
existsb (String.eqb x) arr.

(** The six tests of [isSensitivePath], in the order of its [if]s; each
    takes the lower-cased name. *)
Definition matchesExactName (lowerName : string) : bool :=
arrayIncludes SENSITIVE_PATTERNS lowerName.

Definition matchesEnvFile (lowerName : string) : bool :=
startsWith lowerName ".env." || String.eqb lowerName ".env".

Definition matchesExtension (lowerName : string) : bool :=
existsb (fun ext => endsWith lowerName ext) SENSITIVE_EXTENSIONS.

Definition matchesKeyword (lowerName : string) : bool :=
existsb (fun keyword => includes lowerName keyword) SENSITIVE_KEYWORDS.

Definition matchesSshKey (lowerName : string) : bool :=
startsWith lowerName "id_" && negb (includes lowerName ".pub").

Definition matchesServiceAccountKey (lowerName : string) : bool :=
startsWith lowerName "serviceaccountkey" && endsWith lowerName ".json".

Definition isSensitivePath (name path : string) : bool :=
let lowerName := toLowerCase name in
let lowerPath := toLowerCase path in
if matchesExactName lowerName then true
else if matchesEnvFile lowerName then true
else if matchesExtension lowerName then true
else if matchesKeyword lowerName then true
else if matchesSshKey lowerName then true
else if matchesServiceAccountKey lowerName then true
else false.

Definition dquote : string := String (ascii_of_nat 34) EmptyString.

(** ['Contains "w" in name'] *)
Definition containsInName (w : string) : string :=
"Contains " ++ dquote ++ w ++ dquote ++ " in name".

Definition getSensitiveReason (name : string) : string :=
let lowerName := toLowerCase name in
if startsWith lowerName ".env" then "Environment variables may contain secrets"
else if String.eqb lowerName ".ssh" || startsWith lowerName "id_" then "SSH keys and credentials"
else if String.eqb lowerName ".aws" then "AWS credentials"
else if String.eqb lowerName ".gcp" then "Google Cloud credentials"
else if String.eqb lowerName ".azure" then "Azure credentials"
else if String.eqb lowerName ".kube" then "Kubernetes credentials"
else if String.eqb lowerName ".docker" then "Docker credentials"
else if String.eqb lowerName ".npmrc" then "NPM authentication tokens"
else if String.eqb lowerName ".pypirc" then "PyPI authentication"
else if String.eqb lowerName ".netrc" then "Network credentials"
else if String.eqb lowerName ".gitconfig" then "Git configuration"
else if includes lowerName "history" then "Command history may contain secrets"
else if includes lowerName "secret" then containsInName "secret"
else if includes lowerName "credential" then containsInName "credential"
else if includes lowerName "password" then containsInName "password"
else if includes lowerName "private" then "Private data"
else if includes lowerName "token" then "May contain authentication tokens"
else if includes lowerName "api_key" || includes lowerName "apikey" then "May contain API keys"
else if endsWith lowerName ".pem" || endsWith lowerName ".key" then "Private key file"
else if endsWith lowerName ".p12" || endsWith lowerName ".pfx" then "Certificate with private key"
else if endsWith lowerName ".jks" || endsWith lowerName ".keystore" then "Java keystore"
else if startsWith lowerName "serviceaccount" then "Service account credentials"
else "Potentially sensitive file".

#[local] Set Warnings "-register-all".

Inductive FileNode : Type := mkFileNode {
  name : string;
  path : string;
  relativePath : string;
  isDirectory : bool;
  children : option (list FileNode);
  expanded : bool;
  selected : bool;
  depth : nat;
  isSensitive : bool
}.

Record SensitiveFileItem : Type := mkSensitiveFileItem {
  itemName : string;
  itemPath : string;
  itemRelativePath : string;
  itemSelected : bool;
  itemReason : string
}.

Record BrowseResult : Type := mkBrowseResult {
  ignoredPaths : list string;
  allPaths : list string
}.

(** [collectSensitiveFiles]: a pre-order walk over the whole tree, expanded
    or not. *)
Fixpoint collectNode (node : FileNode) : list SensitiveFileItem :=
((if isSensitive node
  then [mkSensitiveFileItem (name node) (path node) (relativePath node) true
          (getSensitiveReason (name node))]
  else []) ++
 match children node with
 | Some cs => flat_map collectNode cs
 | None => []
 end)%list.

Definition collectSensitiveFiles (tree : list FileNode) : list SensitiveFileItem :=
flat_map collectNode tree.

(** What [readdir(dir, { withFileTypes: true })] yields for one entry. *)
Record Dirent : Type := mkDirent {
  entryName : string;
  entryIsDirectory : bool
}.

(** [Array.prototype.sort] with a comparator: the stable sort.  An element
    is placed before the first later element it does not exceed. *)
Section Sort.
Context {A : Type} (cmp : A -> A -> Z).

Fixpoint insertSorted (x : A) (l : list A) : list A :=
match l with
| [] => [x]
| y :: l' => if (cmp x y <=? 0)%Z then x :: l else y :: insertSorted x l'
end.

Definition sortWith (l : list A) : list A := fold_right insertSorted [] l.

End Sort.

Section Walk.

(** [readdir]: [None] when it throws. *)
Variable readdir : string -> option (list Dirent).
(** [a.localeCompare(b)]. *)
Variable localeCompare : string -> string -> Z.
(** [path.join(dir, name)] and [path.relative(from, to)]. *)
Variable pathJoin : string -> string -> string.
Variable pathRelative : string -> string -> string.

(** The comparator handed to [entries.sort]. *)
Definition compareEntries (a b : Dirent) : Z :=
if entryIsDirectory a && negb (entryIsDirectory b) then (-1)%Z
else if negb (entryIsDirectory a) && entryIsDirectory b then 1%Z
else localeCompare (entryName a) (entryName b).

(** The two [continue]s of the loop over the sorted entries. *)
Definition skipped (depth : nat) (entry : Dirent) : bool :=
if (depth =? 0)%nat && arrayIncludes SYSTEM_HIDDEN (entryName entry) then true
else if startsWith (entryName entry) "." && negb (startsWith (entryName entry) ".env")
        && negb (startsWith (entryName entry) ".openclaw")
     then negb (existsb (fun s => includes (entryName entry) s) ["ssh"; "aws"; "config"; "kube"])
     else false.

(** [buildFileTree] by recursion on the levels left, [maxDepth - depth]. *)
Fixpoint buildLevels (levels : nat) (dir rootPath : string) (depth : nat) : list FileNode :=
match levels with
| O => []
| S levels' =>
    match readdir dir with
    | None => []
    | Some entries =>
        flat_map
          (fun entry =>
             if skipped depth entry then []
             else
               let fullPath := pathJoin dir (entryName entry) in
               let rel := pathRelative rootPath fullPath in
               [ mkFileNode (entryName entry) fullPath
                   (if truthy rel then rel else entryName entry)
                   (entryIsDirectory entry)
                   (if entryIsDirectory entry
                    then Some (buildLevels levels' fullPath rootPath (S depth))
                    else None)
                   false false depth
                   (isSensitivePath (entryName entry) fullPath) ])
          (sortWith compareEntries entries)
    end
end.

Definition buildFileTree (dir rootPath : string) (depth maxDepth : nat) : list FileNode :=
buildLevels (maxDepth - depth) dir rootPath depth.

End Walk.

(** [flattenTree]: the nodes all of whose ancestors are expanded. *)
Fixpoint flattenNode (node : FileNode) : list FileNode :=
node ::
(if isDirectory node && expanded node
 then match children node with
      | Some cs => flat_map flattenNode cs
      | None => []
      end
 else []).

Definition flattenTree (tree : list FileNode) : list FileNode :=
flat_map flattenNode tree.

(** Every node the builder discovered, expanded or not, in the same order. *)
Fixpoint knownNode (node : FileNode) : list FileNode :=
node ::
match children node with
| Some cs => flat_map knownNode cs
| None => []
end.

Definition knownNodes (tree : list FileNode) : list FileNode :=
flat_map knownNode tree.

(** The keys the two handlers tell apart ([k], [j], [l] and [h] are
    read as the arrows). *)
Inductive Key : Type :=
| KeyUp | KeyDown | KeySpace | KeyRight | KeyLeft
| KeySelectAll | KeySelectNone | KeyReturn | KeyEscape | KeyOther.

(** What one call of a keypress handler does: it goes on with a new state,
    resolves the promise, or throws (reading a field of [undefined]). *)
Inductive Outcome (S R : Type) : Type :=
| Continue (s : S)
| Resolve (r : R)
| Throw.
Arguments Continue {S R} s.
Arguments Resolve {S R} r.
Arguments Throw {S R}.

(** [arr[i]] for the cursor, which the handlers keep as a number. *)
Definition at_cursor {A : Type} (arr : list A) (cursor : Z) : option A :=
if (cursor <? 0)%Z then None else nth_error arr (Z.to_nat cursor).

Definition lengthZ {A : Type} (arr : list A) : Z := Z.of_nat (List.length arr).

(** *** Phase A: [runSensitiveFilesOverview] *)

Record OverviewState : Type := mkOverviewState {
  ov_items : list SensitiveFileItem;
  ov_cursor : Z
}.

Definition setItemSelected (b : bool) (i : SensitiveFileItem) : SensitiveFileItem :=
mkSensitiveFileItem (itemName i) (itemPath i) (itemRelativePath i) b (itemReason i).

Fixpoint updateAt {A : Type} (f : A -> A) (k : nat) (l : list A) : list A :=
match l, k with
| [], _ => []
| x :: l', O => f x :: l'
| x :: l', S k' => x :: updateAt f k' l'
end.

Definition overviewKeypress (st : OverviewState) (key : Key)
  : Outcome OverviewState (option JsSet.t) :=
match key with
| KeyUp => Continue (mkOverviewState (ov_items st) (Z.max 0 (ov_cursor st - 1)))
| KeyDown =>
    Continue (mkOverviewState (ov_items st)
                (Z.min (lengthZ (ov_items st) - 1) (ov_cursor st + 1)))
| KeySpace =>
    match at_cursor (ov_items st) (ov_cursor st) with
    | None => Throw
    | Some _ =>
        Continue (mkOverviewState
                    (updateAt (fun i => setItemSelected (negb (itemSelected i)) i)
                       (Z.to_nat (ov_cursor st)) (ov_items st))
                    (ov_cursor st))
    end
| KeySelectAll =>
    Continue (mkOverviewState (map (setItemSelected true) (ov_items st)) (ov_cursor st))
| KeySelectNone =>
    Continue (mkOverviewState (map (setItemSelected false) (ov_items st)) (ov_cursor st))
| KeyReturn =>
    Resolve (Some (JsSet.ofList (map itemPath (filter itemSelected (ov_items st)))))
| KeyEscape => Resolve None
| _ => Continue st
end.

(** *** Phase B: [runIgnoreBrowser] *)

Record BrowserState : Type := mkBrowserState {
  st_tree : list FileNode;
  st_flatList : list FileNode;
  st_cursor : Z;
  st_selected : JsSet.t
}.

(** The [space] branch, for the node under the cursor. *)
Definition toggleSelection (flatList : list FileNode) (node : FileNode)
  (sel : JsSet.t) : JsSet.t :=
if JsSet.has sel (path node) then
  let sel1 := JsSet.delete (path node) sel in
  if isDirectory node then
    fold_left
      (fun acc child =>
         if startsWith (path child) (path node ++ "/")
         then JsSet.delete (path child) acc else acc)
      flatList sel1
  else sel1
else
  let sel1 := JsSet.add (path node) sel in
  if isDirectory node then
    fold_left
      (fun acc child =>
         if startsWith (path child) (path node ++ "/")
         then JsSet.add (path child) acc else acc)
      flatList sel1
  else sel1.

Definition withExpanded (b : bool) (n : FileNode) : FileNode :=
mkFileNode (name n) (path n) (relativePath n) (isDirectory n) (children n)
  b (selected n) (depth n) (isSensitive n).

Definition withChildren (cs : option (list FileNode)) (n : FileNode) : FileNode :=
mkFileNode (name n) (path n) (relativePath n) (isDirectory n) cs
  (expanded n) (selected n) (depth n) (isSensitive n).

(** [flatList[k].expanded = b]: the entries of the flat list are the nodes
    of the tree themselves, so the assignment changes the tree.  The node
    is found by walking the tree in the order [flattenTree] lists it. *)
Fixpoint setExpandedInNode (b : bool) (k : nat) (n : FileNode) : FileNode :=
match k with
| O => withExpanded b n
| S k' =>
    match children n with
    | Some cs =>
        withChildren
          (Some ((fix go (k : nat) (l : list FileNode) : list FileNode :=
                    match l with
                    | [] => []
                    | c :: l' =>
                        let sz := List.length (flattenNode c) in
                        if (k <? sz)%nat then setExpandedInNode b k c :: l'
                        else c :: go (k - sz) l'
                    end) k' cs))
          n
    | None => n
    end
end.

Fixpoint setExpandedAt (b : bool) (k : nat) (tree : list FileNode) : list FileNode :=
match tree with
| [] => []
| n :: rest =>
    let sz := List.length (flattenNode n) in
    if (k <? sz)%nat then setExpandedInNode b k n :: rest
    else n :: setExpandedAt b (k - sz) rest
end.

(** The parent test of the [return] branch: some proper prefix of the
    path's components, joined again, is selected. *)
Definition parentSelected (sel : JsSet.t) (p : string) : bool :=
let parts := split slash p in
existsb (fun i => JsSet.has sel (join slash (firstn i parts)))
  (seq 1 (List.length parts - 1)).

Definition reduceSelection (sel : JsSet.t) : list string :=
filter (fun p => negb (parentSelected sel p)) sel.

Definition topLevelPaths (flatList : list FileNode) : list string :=
map path (filter (fun n => (depth n =? 0)%nat) flatList).

Definition handleKeypress (st : BrowserState) (key : Key)
  : Outcome BrowserState BrowseResult :=
match key with
| KeyUp =>
    Continue (mkBrowserState (st_tree st) (st_flatList st)
                (Z.max 0 (st_cursor st - 1)) (st_selected st))
| KeyDown =>
    Continue (mkBrowserState (st_tree st) (st_flatList st)
                (Z.min (lengthZ (st_flatList st) - 1) (st_cursor st + 1))
                (st_selected st))
| KeySpace =>
    match at_cursor (st_flatList st) (st_cursor st) with
    | None => Throw
    | Some node =>
        Continue (mkBrowserState (st_tree st) (st_flatList st) (st_cursor st)
                    (toggleSelection (st_flatList st) node (st_selected st)))
    end
| KeyRight =>
    match at_cursor (st_flatList st) (st_cursor st) with
    | None => Throw
    | Some node =>
        if isDirectory node && negb (expanded node) then
          let tree' := setExpandedAt true (Z.to_nat (st_cursor st)) (st_tree st) in
          Continue (mkBrowserState tree' (flattenTree tree') (st_cursor st) (st_selected st))
        else Continue st
    end
| KeyLeft =>
    match at_cursor (st_flatList st) (st_cursor st) with
    | None => Throw
    | Some node =>
        if isDirectory node && expanded node then
          let tree' := setExpandedAt false (Z.to_nat (st_cursor st)) (st_tree st) in
          let flat' := flattenTree tree' in
          Continue (mkBrowserState tree' flat'
                      (Z.min (st_cursor st) (lengthZ flat' - 1)) (st_selected st))
        else Continue st
    end
| KeyReturn =>
    Resolve (mkBrowseResult (reduceSelection (st_selected st))
               (topLevelPaths (st_flatList st)))
| KeyEscape => Resolve (mkBrowseResult [] [])
| _ => Continue st
end.

(** The state [runIgnoreBrowser] starts from. *)
Definition initialState (tree : list FileNode) (preSelectedPaths : JsSet.t) : BrowserState :=
mkBrowserState tree (flattenTree tree) 0 preSelectedPaths.

(** Feeds keys to the handler until it resolves, throws or runs out of keys. *)
Fixpoint runKeys (st : BrowserState) (keys : list Key)
  : Outcome BrowserState BrowseResult :=
match keys with
| [] => Continue st
| k :: keys' =>
    match handleKeypress st k with
    | Continue st' => runKeys st' keys'
    | other => other
    end
end.

End Browser.


(** ** src/docker-generator.ts *)

Module DockerGenerator.

Definition isIgnored (path : string) (ignoredPaths : list string) : bool :=
existsb (fun ignored => String.eqb path ignored || startsWith path (ignored ++ "/"))
  ignoredPaths.

(** [allPaths.filter(p => !isIgnored(p, ignoredPaths))] *)
Definition pathsToMount (allPaths ignoredPaths : list string) : list string :=
filter (fun p => negb (isIgnored p ignoredPaths)) allPaths.

(** One entry of the volume list.  The source keeps the rendered text
    [host:container] or [host:container:ro]; [mountString] gives it. *)
Record Mount : Type := mkMount {
  hostPath : string;
  containerPath : string;
  readOnly : bool
}.

Definition mountString (m : Mount) : string :=
hostPath m ++ ":" ++ containerPath m ++ (if readOnly m then ":ro" else "").

Definition runtimeDirs : list string :=
[ "memory"; "logs"; "canvas"; "media"; "cron"; "agents"; "subagents";
  "telegram"; "delivery-queue"; "devices"; "identity" ].

(** The mounts pushed before the loop over the selected paths. *)
Definition baselineMounts (home : string) : list Mount :=
([ mkMount (home ++ "/.openclaw/openclaw.docker.json") "/home/node/.openclaw/openclaw.json" true;
   mkMount (home ++ "/.openclaw/credentials") "/home/node/.openclaw/credentials" true ]
 ++ map (fun dir => mkMount (home ++ "/.openclaw/" ++ dir) ("/home/node/.openclaw/" ++ dir) false)
      runtimeDirs
 ++ [ mkMount (home ++ "/.openclaw/.clawignore") "/home/node/.openclaw/.clawignore" true;
      mkMount (home ++ "/.openclaw/workspace") "/home/node/.openclaw/workspace" false ])%list.

Section Host.

(** [homedir()]. *)
Variable home : string.
(** [stat(p)]: [None] when it throws, else whether [p] is a directory. *)
Variable stat : string -> option bool.

(** Whether the loop body reaches its [push] for [sourcePath]: neither of
    the three [continue]s is taken. *)
Definition mounted (sourcePath : string) : bool :=
let mountName := Path.basename sourcePath in
if String.eqb mountName ".openclaw" || endsWith sourcePath "/.openclaw" then false
else match stat sourcePath with
     | Some isDir => isDir
     | None => false
     end.

(** What the loop body pushes for [sourcePath]. *)
Definition workspaceMount (sourcePath : string) : Mount :=
let mountName := Path.basename sourcePath in
let containerPath := "/home/node/.openclaw/workspace/" ++ mountName in
mkMount sourcePath containerPath false.

Definition generateVolumeMounts (pathsToMount : list string) : list Mount :=
fold_left
  (fun mounts sourcePath =>
     if mounted sourcePath then (mounts ++ [workspaceMount sourcePath])%list
     else mounts)
  pathsToMount (baselineMounts home).

End Host.

Definition clawignoreHeader : list string :=
[ "# Clawignore - Files hidden from OpenClaw";
  "# Generated by clawignore";
  "# These paths are NOT mounted into the Docker container";
  "" ].

Definition generateClawignore (ignoredPaths : list string) : string :=
join LF (clawignoreHeader ++ ignoredPaths)%list ++ String LF EmptyString.

(** The reading of [.clawignore] in [regenerateDockerCompose]. *)
Definition parseClawignore (content : string) : list string :=
filter (fun line => truthy line && negb (startsWith line "#"))
  (map trim (split LF content)).

Record Plan : Type := mkPlan {
  planPathsToMount : list string;
  planVolumeMounts : list string;
  planClawignore : string
}.

(** [generateDockerCompose], as far as the mount list and the ignore list
    go. *)
Definition generateDockerCompose (home : string) (stat : string -> option bool)
  (allPaths ignoredPaths : list string) : Plan :=
let toMount := pathsToMount allPaths ignoredPaths in
mkPlan toMount
  (map mountString (generateVolumeMounts home stat toMount))
  (generateClawignore ignoredPaths).

End DockerGenerator.

(** ** The ignore-list writer: categories *)

Module Writer.

Inductive Category : Type :=
| Secrets | Credentials | Keys | Config | Data | Custom.

Definition CATEGORY_COMMENTS (c : Category) : string :=
match c with
| Secrets => "# Secrets & environment variables"
| Credentials => "# Credentials & auth tokens"
| Keys => "# Private keys & certificates"
| Config => "# Configuration files"
| Data => "# Data files"
| Custom => "# Custom patterns"
end.

Definition categorizePattern (pattern : string) : Category :=
let lower := toLowerCase pattern in
if includes lower ".env" || includes lower "secret" || includes lower "password"
then Secrets
else if includes lower "credential" || includes lower ".aws" || includes lower ".gcp"
        || includes lower ".npmrc" || includes lower ".pypirc" || includes lower "kube"
        || includes lower "token"
then Credentials
else if includes lower ".pem" || includes lower ".key" || includes lower ".p12"
        || includes lower ".pfx" || includes lower "id_rsa" || includes lower "id_ed25519"
        || includes lower "id_ecdsa" || includes lower ".ssh"
then Keys
else if includes lower "config" || includes lower ".tfvars" || includes lower "settings"
then Config
else if includes lower ".db" || includes lower ".sqlite" || includes lower ".xlsx"
        || includes lower ".csv" || includes lower "data"
then Data
else Custom.

Definition HEADER : string :=
join LF
  [ "# Clawignore - Files hidden from OpenClaw AI agent";
    "# Uses .gitignore syntax";
    "# https://github.com/yourrepo/clawignore-setup";
    "#";
    "# Files listed here will not be mounted into the Docker container,";
    "# making them completely inaccessible to the AI agent.";
    ""; "" ].

Definition parseExistingPatterns (content : string) : list string :=
filter (fun trimmed => negb (negb (truthy trimmed) || startsWith trimmed "#"))
  (map trim (split LF content)).

Definition categoryEqb (a b : Category) : bool :=
match a, b with
| Secrets, Secrets | Credentials, Credentials | Keys, Keys
| Config, Config | Data, Data | Custom, Custom => true
| _, _ => false
end.

(** The keys of the record [groupPatterns] fills, in the order
    [Object.entries] lists them. *)
Definition categories : list Category :=
[ Secrets; Credentials; Keys; Config; Data; Custom ].

Definition groupPatterns (patterns : list string) (c : Category) : list string :=
filter (fun pattern => categoryEqb (categorizePattern pattern) c) patterns.

Definition lineOf (s : string) : string := s ++ String LF EmptyString.

(** The text [writeClawignore] writes; [existing] is the content of the
    file when it is already there. *)
Definition writeClawignore (existing : option string) (patterns : list string) : string :=
let existingPatterns :=
  match existing with
  | Some content => parseExistingPatterns content
  | None => []
  end in
let allPatterns := JsSet.ofList (existingPatterns ++ patterns)%list in
let grouped := groupPatterns allPatterns in
let content :=
  fold_left
    (fun content category =>
       match grouped category with
       | [] => content
       | categoryPatterns =>
           fold_left (fun content pattern => content ++ lineOf pattern)
             categoryPatterns (content ++ lineOf (CATEGORY_COMMENTS category))
           ++ String LF EmptyString
       end)
    categories HEADER in
lineOf (trimEnd content).

(** [appendToClawignore]: the content it writes, or [None] when it
    returns without writing; [existing] is the content of the file when it
    can be read. *)
Definition appendToClawignore (existing : option string) (patterns : list string)
  : option string :=
let content :=
  match existing with
  | Some content => content
  | None => HEADER
  end in
let existingPatterns := parseExistingPatterns content in
let newPatterns :=
  filter (fun p => negb (existsb (String.eqb p) existingPatterns)) patterns in
match newPatterns with
| [] => None
| _ =>
    Some (fold_left (fun content pattern => content ++ lineOf pattern) newPatterns
            (trimEnd content ++
             String LF (String LF EmptyString) ++ lineOf "# Added by clawignore-setup"))
end.

End Writer.

(** ** src/index.ts: the summary of the Docker setup *)

Module Index.



End Index.

(** ** A small home directory

    The inputs the examples below run on: a home with a project folder, an
    [.aws] folder and a file, compared by code units and joined with a
    slash. *)

Module Example.

Import Browser.

Definition codeUnitCompare (a b : string) : Z :=
match String.compare a b with
| Lt => (-1)%Z
| Eq => 0%Z
| Gt => 1%Z
end.

(** [path.join(dir, name)] for a normalised [dir] other than the root and
    a plain entry name. *)
Definition joinBelow (dir name : string) : string := dir ++ "/" ++ name.

(** [path.relative(from, to)] for [to] below [from]. *)
Definition relativeBelow (from to : string) : string :=
substring (S (String.length from)) (String.length to - S (String.length from)) to.

Definition readdir (dir : string) : option (list Dirent) :=
if String.eqb dir "/home/u" then
  Some [ mkDirent "notes.txt" false; mkDirent "proj" true; mkDirent ".aws" true;
         mkDirent "Library" true; mkDirent ".zshrc" false ]
else if String.eqb dir "/home/u/proj" then
  Some [ mkDirent "b.txt" false; mkDirent "a.txt" false ]
else if String.eqb dir "/home/u/.aws" then
  Some [ mkDirent "credentials" false ]
else None.

Definition tree : list FileNode :=
buildFileTree readdir codeUnitCompare joinBelow relativeBelow "/home/u" "/home/u" 0 3.

(** Phase A confirmed as it comes up: every sensitive entry stays selected. *)
Definition preSelected : JsSet.t :=
match overviewKeypress (mkOverviewState (collectSensitiveFiles tree) 0) KeyReturn with
| Resolve (Some paths) => paths
| _ => []
end.

(** The browser with nothing pre-selected, the cursor moved to [proj] and
    [proj] expanded. *)
Definition projExpanded : BrowserState :=
match runKeys (initialState tree []) [KeyDown; KeyRight] with
| Continue st => st
| _ => initialState tree []
end.

Definition aTxt : FileNode :=
mkFileNode "a.txt" "/home/u/proj/a.txt" "proj/a.txt" false None false false 1 false.

Definition bTxt : FileNode :=
mkFileNode "b.txt" "/home/u/proj/b.txt" "proj/b.txt" false None false false 1 false.

Definition projOpen : FileNode :=
mkFileNode "proj" "/home/u/proj" "proj" true (Some [aTxt; bTxt]) true false 0 false.

End Example.

Import Browser DockerGenerator.

(** ** Vocabulary of the properties *)

(** [x] is the path of an entry of the flat list that lies under the
    directory [node]: the paths the two loops of the [space] branch act
    on. *)
Definition listedUnder (flatList : list FileNode) (node : FileNode) (x : string) : Prop :=
isDirectory node = true /\ In x (map path flatList) /\
startsWith x (path node ++ "/") = true.

(** [a] may stand before [b] among siblings: a directory before a file,
    and within the same kind the name that [localeCompare] does not put
    after the other. *)
Definition nodeBefore (localeCompare : string -> string -> Z) (a b : FileNode) : Prop :=
(isDirectory a = true /\ isDirectory b = false) \/
(isDirectory a = isDirectory b /\ (localeCompare (name a) (name b) <= 0)%Z).

(** Every sibling list of the tree is in that order. *)
Inductive SiblingsOrdered (localeCompare : string -> string -> Z)
  : list FileNode -> Prop :=
| siblings_ordered (nodes : list FileNode) :
    StronglySorted (nodeBefore localeCompare) nodes ->
    (forall n cs, In n nodes -> children n = Some cs ->
                  SiblingsOrdered localeCompare cs) ->
    SiblingsOrdered localeCompare nodes.

(** The container directory the selected folders are mounted under. *)
Definition workspacePrefix : string := "/home/node/.openclaw/workspace/".

(** A line [p] stands under the header [hdr]: the header occurs, and [p]
    after it. *)
Definition underHeader (hdr p : string) (lines : list string) : Prop :=
exists before between after,
  lines = (before ++ hdr :: between ++ p :: after)%list.

(** An entry the reader returns as it was written: on one line, with no
    white space at either end, not empty and not a comment. *)
Definition plainEntry (p : string) : Prop :=
lacks LF p = true /\ trim p = p /\ p <> "" /\ startsWith p "#" = false.

(** A node as the renderer reads it: every field but the children. *)
Definition shallow (n : FileNode) : FileNode := withChildren None n.

(** The children a directory shows when it is expanded. *)
Definition shownChildren (n : FileNode) : list FileNode :=
match children n with
| Some cs => flattenTree cs
| None => []
end.

(** Every node of the list has depth [d], its children [d + 1], and so
    on. *)
Inductive DepthsFrom : nat -> list FileNode -> Prop :=
| depths_from (d : nat) (nodes : list FileNode) :
    (forall n, In n nodes -> depth n = d) ->
    (forall n cs, In n nodes -> children n = Some cs -> DepthsFrom (S d) cs) ->
    DepthsFrom d nodes.

(** The state of the browser between two keys: the flat list is the
    flattening of the tree, and the cursor is on one of its entries. *)
Definition Browsing (st : BrowserState) : Prop :=
st_flatList st = flattenTree (st_tree st) /\
(0 <= st_cursor st < lengthZ (st_flatList st))%Z.

(** What the builder guarantees of a node it made, for a walk bounded by
    [maxDepth]: the flags it starts with, the verdict of the classifier,
    children for directories only, built one level deeper from the node's
    own path, and a name that is not one of those the walk skips at that
    depth. *)
Definition Built (readdir : string -> option (list Dirent))
  (localeCompare : string -> string -> Z)
  (pathJoin pathRelative : string -> string -> string)
  (rootPath : string) (maxDepth : nat) (n : FileNode) : Prop :=
expanded n = false /\
selected n = false /\
isSensitive n = isSensitivePath (name n) (path n) /\
depth n < maxDepth /\
skipped (depth n) (mkDirent (name n) (isDirectory n)) = false /\
children n =
  (if isDirectory n
   then Some (buildFileTree readdir localeCompare pathJoin pathRelative
                (path n) rootPath (S (depth n)) maxDepth)
   else None).

(** The item the review phase shows for a sensitive node. *)
Definition itemOf (n : FileNode) : SensitiveFileItem :=
mkSensitiveFileItem (name n) (path n) (relativePath n) true
  (getSensitiveReason (name n)).

(** The reason [getSensitiveReason] falls back on. *)
Definition fallbackReason : string := "Potentially sensitive file".

(** Only white space. *)
Fixpoint allWhite (s : string) : bool :=
match s with
| EmptyString => true
| String c s' => isWhite c && allWhite s'
end.

(** The lines, each ended by a line feed. *)
Fixpoint unlines (lines : list string) : string :=
match lines with
| [] => EmptyString
| x :: rest => x ++ String LF (unlines rest)
end.

(** The test both readers apply to a trimmed line. *)
Definition keptLine (line : string) : bool :=
truthy line && negb (startsWith line "#").

(** The lines the writer adds for one category. *)
Definition blockLines (grouped : Writer.Category -> list string)
  (c : Writer.Category) : list string :=
match grouped c with
| [] => []
| g => (Writer.CATEGORY_COMMENTS c :: g ++ [""])%list
end.

(** What the browser keeps of the tree it was started on. *)
Definition Keeps (tree0 : list FileNode) (st : BrowserState) : Prop :=
st_flatList st = flattenTree (st_tree st) /\
DepthsFrom 0 (st_tree st) /\
map path (st_tree st) = map path tree0.

(** What setting the flag of the [k]-th listed node does to the list: the
    stretch that node and the nodes shown below it take up is replaced by
    the stretch it takes up with the new flag. *)
Definition Replaced (b : bool) (before after : list FileNode) (k : nat) (m : FileNode) : Prop :=
map shallow after =
  (firstn k (map shallow before) ++
   map shallow (flattenNode (withExpanded b m)) ++
   skipn (k + List.length (flattenNode m)) (map shallow before))%list /\
k + List.length (flattenNode m) <= List.length before.

(** The first character, if there is one, is not white space. *)
Definition headNotWhite (s : string) : Prop :=
match s with
| EmptyString => True
| String c _ => isWhite c = false
end.

(** The lines of the writer's [HEADER]. *)
Definition headerLines : list string :=
[ "# Clawignore - Files hidden from OpenClaw AI agent";
  "# Uses .gitignore syntax";
  "# https://github.com/yourrepo/clawignore-setup";
  "#";
  "# Files listed here will not be mounted into the Docker container,";
  "# making them completely inaccessible to the AI agent.";
  "" ].

(** What the browser keeps of the selection it was started with and of the
    tree: the flat list is the flattening of the tree, the tree has the
    paths it had, and a selected path was pre-selected or is a path of the
    tree. *)
Definition SelectsKnown (tree0 : list FileNode) (pre : JsSet.t) (st : BrowserState) : Prop :=
st_flatList st = flattenTree (st_tree st) /\
map path (knownNodes (st_tree st)) = map path (knownNodes tree0) /\
NoDup (st_selected st) /\
forall p, In p (st_selected st) -> In p pre \/ In p (map path (knownNodes tree0)).

(** * Properties *)

(** ** Strings *)

Lemma startsWith_iff (s pre : string) :
  startsWith s pre = true <-> exists r, s = pre ++ r.
Proof.
  unfold startsWith. revert s.
  induction pre as [|c pre IH]; intros s; simpl.
  - split; [intros _; exists s; destruct s; reflexivity | destruct s; reflexivity].
  - destruct s as [|d s]; simpl.
    + split; [discriminate | intros [r Hr]; discriminate].
    + destruct (ascii_dec c d) as [->|Hcd].
      * rewrite IH. split; intros [r Hr]; exists r; [now rewrite Hr | now inversion Hr].
      * split; [discriminate | intros [r Hr]; inversion Hr; congruence].
Qed.

Lemma append_assoc (a b c : string) : (a ++ b) ++ c = a ++ (b ++ c).
Proof. induction a as [|x a IH]; simpl; [reflexivity | now rewrite IH]. Qed.

Lemma append_nil_r (a : string) : a ++ "" = a.
Proof. induction a as [|x a IH]; simpl; [reflexivity | now rewrite IH]. Qed.

Lemma length_append (a b : string) :
  String.length (a ++ b) = String.length a + String.length b.
Proof. induction a as [|x a IH]; simpl; [reflexivity | now rewrite IH]. Qed.

Lemma split_not_nil (sep : ascii) (s : string) : split sep s <> [].
Proof.
  destruct s as [|c s]; simpl; [discriminate|].
  destruct (Ascii.eqb c sep); [discriminate|].
  destruct (split sep s); discriminate.
Qed.

Lemma join_cons (sep : ascii) (x : string) (l : list string) :
  l <> [] -> join sep (x :: l) = x ++ String sep (join sep l).
Proof. destruct l; [congruence | reflexivity]. Qed.

Lemma join_split (sep : ascii) (s : string) : join sep (split sep s) = s.
Proof.
  induction s as [|c s IH]; [reflexivity|].
  simpl. destruct (Ascii.eqb_spec c sep) as [->|Hc].
  - rewrite join_cons by apply split_not_nil. simpl. now rewrite IH.
  - pose proof (split_not_nil sep s) as Hne.
    destruct (split sep s) as [|h t]; [congruence|].
    destruct t as [|h' t].
    + simpl in *. now rewrite IH.
    + rewrite join_cons by discriminate.
      rewrite join_cons in IH by discriminate.
      now rewrite <- IH.
Qed.

Lemma split_app_sep (sep : ascii) (p r : string) :
  split sep (p ++ String sep r) = (split sep p ++ split sep r)%list.
Proof.
  induction p as [|c p IH]; simpl.
  - now rewrite Ascii.eqb_refl.
  - destruct (Ascii.eqb c sep); rewrite IH; [reflexivity|].
    pose proof (split_not_nil sep p) as Hne.
    destruct (split sep p); [congruence | reflexivity].
Qed.

Lemma join_app (sep : ascii) (l1 l2 : list string) :
  l1 <> [] -> l2 <> [] ->
  join sep (l1 ++ l2) = join sep l1 ++ String sep (join sep l2).
Proof.
  intros H1 H2. induction l1 as [|x l1 IH]; [congruence|].
  destruct l1 as [|y l1].
  - simpl app. now rewrite join_cons.
  - change ((x :: y :: l1) ++ l2)%list with (x :: ((y :: l1) ++ l2))%list.
    rewrite join_cons by discriminate.
    rewrite IH by discriminate.
    rewrite (join_cons sep x (y :: l1)) by discriminate.
    now rewrite append_assoc.
Qed.

Lemma split_lacks (sep : ascii) (s : string) :
  lacks sep s = true -> split sep s = [s].
Proof.
  induction s as [|c s IH]; simpl; [reflexivity|].
  destruct (Ascii.eqb c sep); simpl; [discriminate|].
  intros H. now rewrite IH.
Qed.

Lemma split_join (sep : ascii) (l : list string) :
  l <> [] -> Forall (fun s => lacks sep s = true) l -> split sep (join sep l) = l.
Proof.
  intros Hne Hall. induction Hall as [|x l Hx Hall IH]; [congruence|].
  destruct l as [|y l].
  - simpl. now apply split_lacks.
  - rewrite join_cons by discriminate.
    rewrite split_app_sep, IH by discriminate.
    now rewrite split_lacks.
Qed.

(** ** Sets *)

Lemma has_In (s : JsSet.t) (x : string) : JsSet.has s x = true <-> In x s.
Proof.
  unfold JsSet.has. rewrite existsb_exists. split.
  - intros [y [Hy He]]. apply String.eqb_eq in He. now subst.
  - intros H. exists x. split; [assumption | apply String.eqb_refl].
Qed.

Lemma has_false (s : JsSet.t) (x : string) : JsSet.has s x = false <-> ~ In x s.
Proof.
  rewrite <- has_In. destruct (JsSet.has s x); split; congruence.
Qed.

Lemma In_add (x y : string) (s : JsSet.t) :
  In y (JsSet.add x s) <-> In y s \/ y = x.
Proof.
  unfold JsSet.add. destruct (JsSet.has s x) eqn:E.
  - apply has_In in E. split; [now left | intros [H| ->]; assumption].
  - rewrite in_app_iff. simpl. intuition.
Qed.

Lemma In_delete (x y : string) (s : JsSet.t) :
  In y (JsSet.delete x s) <-> In y s /\ y <> x.
Proof.
  unfold JsSet.delete. rewrite filter_In.
  destruct (String.eqb_spec x y) as [->|Hn]; simpl; intuition congruence.
Qed.

Lemma NoDup_add (x : string) (s : JsSet.t) : NoDup s -> NoDup (JsSet.add x s).
Proof.
  intros H. unfold JsSet.add. destruct (JsSet.has s x) eqn:E; [assumption|].
  apply has_false in E.
  apply NoDup_app; [assumption | repeat constructor; simpl; tauto |].
  intros a Ha [<-|[]]. contradiction.
Qed.

Lemma NoDup_delete (x : string) (s : JsSet.t) : NoDup s -> NoDup (JsSet.delete x s).
Proof. apply NoDup_filter. Qed.

(** ** The reduction at Confirm *)

(** The parent test of the [return] branch finds exactly the selected
    paths [a] of which [q] is a lexical descendant, [a + "/" + r]. *)
Lemma parentSelected_iff (sel : JsSet.t) (q : string) :
  parentSelected sel q = true <->
  exists a r, In a sel /\ q = a ++ String slash r.
Proof.
  unfold parentSelected. rewrite existsb_exists. split.
  - intros [i [Hi Hhas]]. apply in_seq in Hi. apply has_In in Hhas.
    pose proof (firstn_skipn i (split slash q)) as Hparts.
    assert (H1 : firstn i (split slash q) <> []).
    { intros E. apply (f_equal (@List.length string)) in E.
      rewrite length_firstn in E. simpl in E. lia. }
    assert (H2 : skipn i (split slash q) <> []).
    { intros E. apply (f_equal (@List.length string)) in E.
      rewrite length_skipn in E. simpl in E. lia. }
    exists (join slash (firstn i (split slash q))), (join slash (skipn i (split slash q))).
    split; [assumption|].
    rewrite <- join_app by assumption.
    now rewrite Hparts, join_split.
  - intros [a [r [Ha ->]]].
    rewrite split_app_sep.
    pose proof (split_not_nil slash a) as Hna.
    pose proof (split_not_nil slash r) as Hnr.
    exists (List.length (split slash a)). split.
    + apply in_seq. rewrite length_app.
      destruct (split slash a); [congruence|].
      destruct (split slash r); [congruence|]. simpl. lia.
    + rewrite firstn_app, Nat.sub_diag, firstn_all. simpl.
      rewrite app_nil_r, join_split. now apply has_In.
Qed.

Lemma In_reduceSelection (sel : JsSet.t) (q : string) :
  In q (reduceSelection sel) <->
  In q sel /\ forall a r, In a sel -> q <> a ++ String slash r.
Proof.
  unfold reduceSelection. rewrite filter_In, negb_true_iff. split.
  - intros [Hq Hp]. split; [assumption|]. intros a r Ha E.
    assert (parentSelected sel q = true) by (apply parentSelected_iff; eauto).
    congruence.
  - intros [Hq Hno]. split; [assumption|].
    destruct (parentSelected sel q) eqn:E; [|reflexivity].
    apply parentSelected_iff in E. destruct E as [a [r [Ha E]]].
    exfalso. exact (Hno a r Ha E).
Qed.

Lemma startsWith_slash_false (q a : string) :
  (forall r, q <> a ++ String slash r) -> startsWith q (a ++ "/") = false.
Proof.
  intros H. destruct (startsWith q (a ++ "/")) eqn:E; [|reflexivity].
  apply startsWith_iff in E. destruct E as [r Hr].
  exfalso. apply (H r). now rewrite Hr, append_assoc.
Qed.

(** Every selected path is still covered by a returned one: it is returned
    itself or lies under a returned path. *)
Lemma reduceSelection_covers (sel : JsSet.t) (q : string) :
  In q sel ->
  exists p, In p (reduceSelection sel) /\ (p = q \/ exists r, q = p ++ String slash r).
Proof.
  remember (String.length q) as n eqn:Hn. revert q Hn.
  induction n as [n IH] using lt_wf_ind. intros q Hn Hq.
  destruct (parentSelected sel q) eqn:E.
  - apply parentSelected_iff in E. destruct E as [a [r [Ha E]]].
    destruct (IH (String.length a)) with (q := a) as [p [Hp Hcov]]; try reflexivity; try assumption.
    { subst. rewrite length_append. simpl. lia. }
    exists p. split; [assumption|]. right.
    destruct Hcov as [->|[r' ->]]; [now exists r|].
    exists (r' ++ String slash r). subst q. now rewrite append_assoc.
  - exists q. split; [|now left].
    unfold reduceSelection. apply filter_In. now rewrite E.
Qed.

(** C6.  Confirm resolves, and the denied paths it returns are the
    selection in minimal covering form.  The returned paths are exactly the
    selected paths of which no selected path is a proper ancestor (none
    starts with a selected path followed by a slash); so no returned path
    is a descendant of another returned path; and the returned paths still
    cover the selection: every selected path is returned itself or lies
    under a returned path. *)
Theorem confirm_returns_minimal_cover (st : BrowserState) :
  exists r,
    handleKeypress st KeyReturn = Resolve r /\
    (forall q, In q (ignoredPaths r) <->
       In q (st_selected st) /\
       forall a, In a (st_selected st) -> startsWith q (a ++ "/") = false) /\
    (forall p q, In p (ignoredPaths r) -> In q (ignoredPaths r) ->
       startsWith q (p ++ "/") = false) /\
    (forall q, In q (st_selected st) ->
       exists p, In p (ignoredPaths r) /\
                 (p = q \/ startsWith q (p ++ "/") = true)).
Proof.
  eexists. split; [reflexivity|]. simpl.
  assert (H : forall q, In q (reduceSelection (st_selected st)) <->
            In q (st_selected st) /\
            forall a, In a (st_selected st) -> startsWith q (a ++ "/") = false).
  { intros q. rewrite In_reduceSelection. split; intros [Hq Hno]; (split; [assumption|]).
    - intros a Ha. apply startsWith_slash_false. intros r. now apply Hno.
    - intros a r Ha E. specialize (Hno a Ha).
      assert (Hs : startsWith q (a ++ "/") = true).
      { apply startsWith_iff. exists r. now rewrite E, append_assoc. }
      congruence. }
  split; [exact H|]. split.
  - intros p q Hp Hq. apply (proj2 (proj1 (H q) Hq)). exact (proj1 (proj1 (H p) Hp)).
  - intros q Hq. destruct (reduceSelection_covers (st_selected st) q Hq) as [p [Hp Hcov]].
    exists p. split; [assumption|]. destruct Hcov as [E|[r E]]; [now left|right].
    apply startsWith_iff. exists r. now rewrite E, append_assoc.
Qed.

(** ** The mount compiler *)

Lemma isIgnored_iff (p : string) (ignored : list string) :
  isIgnored p ignored = true <->
  exists d, In d ignored /\ (p = d \/ startsWith p (d ++ "/") = true).
Proof.
  unfold isIgnored. rewrite existsb_exists.
  split; intros [d [Hd H]]; exists d; (split; [assumption|]).
  - apply orb_true_iff in H. destruct H as [H|H]; [left; now apply String.eqb_eq | now right].
  - apply orb_true_iff. destruct H as [H|H]; [left; now apply String.eqb_eq | now right].
Qed.

(** C9.  Denial is monotone: a path ignored under a list stays ignored
    under any list that has all its elements, so a longer denied list never
    adds a path to [pathsToMount]. *)
Theorem denial_monotone (A B : list string) :
  incl A B ->
  (forall p, isIgnored p A = true -> isIgnored p B = true) /\
  (forall all, incl (pathsToMount all B) (pathsToMount all A)).
Proof.
  intros HAB.
  assert (Hmono : forall p, isIgnored p A = true -> isIgnored p B = true).
  { intros p H. apply isIgnored_iff in H. destruct H as [d [Hd H]].
    apply isIgnored_iff. exists d. split; [now apply HAB | assumption]. }
  split; [exact Hmono|].
  intros all p Hp. unfold pathsToMount in *.
  apply filter_In in Hp. destruct Hp as [Hin Hneg].
  apply filter_In. split; [assumption|].
  apply negb_true_iff in Hneg. apply negb_true_iff.
  destruct (isIgnored p A) eqn:E; [|reflexivity].
  apply Hmono in E. congruence.
Qed.

Lemma denial_monotone_witness :
  incl (pathsToMount ["/home/u/Documents"; "/home/u/.ssh"; "/home/u/.aws"]
          ["/home/u/.ssh"; "/home/u/.aws"])
       (pathsToMount ["/home/u/Documents"; "/home/u/.ssh"; "/home/u/.aws"]
          ["/home/u/.ssh"]).
Proof.
  apply (denial_monotone ["/home/u/.ssh"] ["/home/u/.ssh"; "/home/u/.aws"]).
  intros x [<-|[]]. simpl. auto.
Defined.

(** C5, amended.  The end-to-end scenario: with [/home/u/.ssh] denied, the
    paths to mount are the two others, in order.  The ignore list the
    compiler renders is its fixed three-line comment header, a blank line
    and the denied path: the path is its only line that is neither blank
    nor a comment, and no category header is written.  It is the separate
    ignore-list writer that files this path under keys and writes it under
    the keys header. *)
Theorem scenario_ssh_denied (home : string) (stat : string -> option bool) :
  let plan :=
    generateDockerCompose home stat
      ["/home/u/Documents"; "/home/u/.ssh"; "/home/u/project"] ["/home/u/.ssh"] in
  planPathsToMount plan = ["/home/u/Documents"; "/home/u/project"] /\
  split LF (planClawignore plan) =
    [ "# Clawignore - Files hidden from OpenClaw";
      "# Generated by clawignore";
      "# These paths are NOT mounted into the Docker container";
      ""; "/home/u/.ssh"; "" ] /\
  parseClawignore (planClawignore plan) = ["/home/u/.ssh"] /\
  Writer.categorizePattern "/home/u/.ssh" = Writer.Keys /\
  underHeader (Writer.CATEGORY_COMMENTS Writer.Keys) "/home/u/.ssh"
    (split LF (Writer.writeClawignore None ["/home/u/.ssh"])).
Proof.
  repeat (split; [reflexivity|]).
  exists (removelast (split LF Writer.HEADER)), [], [""]. reflexivity.
Qed.

(** C5 as stated fails: in the text the compiler renders for the scenario
    the denied path stands under no keys header, the header does not occur
    at all. *)
Lemma scenario_has_no_keys_header :
  let text := generateClawignore ["/home/u/.ssh"] in
  In "/home/u/.ssh" (split LF text) /\
  ~ In (Writer.CATEGORY_COMMENTS Writer.Keys) (split LF text) /\
  ~ underHeader (Writer.CATEGORY_COMMENTS Writer.Keys) "/home/u/.ssh" (split LF text).
Proof.
  assert (Hno : ~ In (Writer.CATEGORY_COMMENTS Writer.Keys)
                    (split LF (generateClawignore ["/home/u/.ssh"]))).
  { vm_compute. intros H.
    repeat (destruct H as [H|H]; [discriminate H|]). exact H. }
  split; [vm_compute; tauto|]. split; [exact Hno|].
  intros [before [between [after E]]]. apply Hno. rewrite E.
  apply in_or_app. right. now left.
Qed.

(** C7.  The classifier is a function of its arguments, and of the name
    alone.  [.env] is sensitive, with a reason that mentions environment
    variables.  [id_rsa.pub] passes none of the six tests, the key-name test
    included.  [notes-on-password-policy.md] is sensitive by the keyword
    test, the three tests before it failing, and the keyword is
    [password]. *)
Theorem classifier_cases :
  (forall n p, isSensitivePath n p = isSensitivePath n p /\
               getSensitiveReason n = getSensitiveReason n) /\
  (forall n p p', isSensitivePath n p = isSensitivePath n p') /\
  (forall p, isSensitivePath ".env" p = true) /\
  getSensitiveReason ".env" = "Environment variables may contain secrets" /\
  includes (toLowerCase (getSensitiveReason ".env")) "environment variables" = true /\
  (forall p, isSensitivePath "id_rsa.pub" p = false) /\
  matchesSshKey (toLowerCase "id_rsa.pub") = false /\
  (forall p, isSensitivePath "notes-on-password-policy.md" p = true) /\
  matchesExactName (toLowerCase "notes-on-password-policy.md") = false /\
  matchesEnvFile (toLowerCase "notes-on-password-policy.md") = false /\
  matchesExtension (toLowerCase "notes-on-password-policy.md") = false /\
  matchesKeyword (toLowerCase "notes-on-password-policy.md") = true /\
  includes (toLowerCase "notes-on-password-policy.md") "password" = true /\
  getSensitiveReason "notes-on-password-policy.md" = containsInName "password".
Proof. repeat split. Qed.

(** ** The ignore list, written and read back *)

Lemma parse_entries (paths : list string) :
  Forall plainEntry paths ->
  filter (fun line => truthy line && negb (startsWith line "#")) (map trim paths) = paths.
Proof.
  induction 1 as [|p paths [_ [Ht [Hne Hc]]] _ IH]; [reflexivity|].
  simpl. rewrite Ht, Hc, IH.
  destruct p; [congruence | reflexivity].
Qed.

(** C10, amended.  For entries that hold no line feed and no white space at
    either end, are not empty and do not start with [#], reading back what
    the compiler wrote gives the entries, in order. *)
Theorem clawignore_roundtrip (paths : list string) :
  Forall plainEntry paths ->
  parseClawignore (generateClawignore paths) = paths.
Proof.
  intros Hall. unfold parseClawignore, generateClawignore.
  rewrite split_app_sep, split_join.
  - rewrite !map_app, !filter_app, (parse_entries paths Hall).
    simpl. now rewrite app_nil_r.
  - discriminate.
  - apply Forall_app. split.
    + repeat constructor.
    + eapply Forall_impl; [|exact Hall]. intros p Hp. exact (proj1 Hp).
Qed.

Lemma clawignore_roundtrip_witness :
  parseClawignore (generateClawignore ["/home/u/.ssh"; "/home/u/my notes"])
  = ["/home/u/.ssh"; "/home/u/my notes"].
Proof.
  apply (clawignore_roundtrip ["/home/u/.ssh"; "/home/u/my notes"]).
  repeat constructor; discriminate.
Defined.

(** C10 as stated fails: an entry that ends in a space is not empty after
    trimming and does not start with [#], and it is read back without the
    space. *)
Lemma roundtrip_loses_padding :
  let paths := ["/home/u/notes "] in
  Forall (fun p => trim p <> "" /\ startsWith p "#" = false) paths /\
  parseClawignore (generateClawignore paths) = ["/home/u/notes"] /\
  parseClawignore (generateClawignore paths) <> paths.
Proof.
  repeat split.
  - repeat constructor; simpl; discriminate.
  - discriminate.
Qed.

(** ** Volume mounts *)

Lemma append_inj_l (pre a b : string) : pre ++ a = pre ++ b -> a = b.
Proof.
  induction pre as [|c pre IH]; simpl; [trivial|].
  intros H. inversion H. auto.
Qed.

Lemma NoDup_map_append (pre : string) (l : list string) :
  NoDup l -> NoDup (map (String.append pre) l).
Proof.
  induction 1 as [|x l Hx _ IH]; simpl; constructor; [|assumption].
  intros Hin. apply in_map_iff in Hin. destruct Hin as [y [E Hy]].
  apply append_inj_l in E. now subst.
Qed.

Lemma baseline_containers_NoDup (home : string) :
  NoDup (map containerPath (baselineMounts home)).
Proof.
  simpl. repeat (constructor; [simpl; intuition discriminate|]). constructor.
Qed.

Lemma baseline_outside_workspace (home m : string) :
  ~ In (workspacePrefix ++ m) (map containerPath (baselineMounts home)).
Proof.
  simpl. intros H.
  repeat (destruct H as [H|H]; [discriminate H|]). exact H.
Qed.

(** The loop appends, in order, one mount for each path it does not skip. *)
Lemma generateVolumeMounts_eq (home : string) (stat : string -> option bool)
  (paths : list string) :
  generateVolumeMounts home stat paths =
  (baselineMounts home ++ map workspaceMount (filter (mounted stat) paths))%list.
Proof.
  unfold generateVolumeMounts. generalize (baselineMounts home) as acc.
  induction paths as [|p paths IH]; intros acc; simpl.
  - now rewrite app_nil_r.
  - rewrite IH. destruct (mounted stat p); simpl; [|reflexivity].
    now rewrite <- app_assoc.
Qed.

Lemma workspace_containers (home : string) (stat : string -> option bool)
  (paths : list string) :
  map containerPath (generateVolumeMounts home stat paths) =
  (map containerPath (baselineMounts home) ++
   map (String.append workspacePrefix)
     (map Path.basename (filter (mounted stat) paths)))%list.
Proof.
  rewrite generateVolumeMounts_eq. now rewrite map_app, !map_map.
Qed.

(** C1, amended.  When the directories that get mounted have pairwise
    different base names, no two volume mounts have the same container
    path. *)
Theorem mounts_distinct_when_basenames_distinct
  (home : string) (stat : string -> option bool) (paths : list string) :
  NoDup (map Path.basename (filter (mounted stat) paths)) ->
  NoDup (map containerPath (generateVolumeMounts home stat paths)).
Proof.
  intros Hnd. rewrite workspace_containers.
  apply NoDup_app.
  - apply baseline_containers_NoDup.
  - now apply NoDup_map_append.
  - intros c Hc Hin. apply in_map_iff in Hin.
    destruct Hin as [m [<- _]].
    exact (baseline_outside_workspace home m Hc).
Qed.

Lemma mounts_distinct_witness :
  NoDup (map containerPath
           (generateVolumeMounts "/home/u" (fun _ => Some true)
              ["/home/u/Documents"; "/home/u/project"])).
Proof.
  apply (mounts_distinct_when_basenames_distinct "/home/u" (fun _ => Some true)
           ["/home/u/Documents"; "/home/u/project"]).
  simpl. repeat (constructor; [simpl; intuition discriminate|]). constructor.
Defined.

(** C1 as stated fails: two directories with the same base name under
    different parents are both mounted, at the same container path. *)
Lemma same_basename_mounted_twice :
  let mounts :=
    generateVolumeMounts "/home/u" (fun _ => Some true) ["/a/data"; "/b/data"] in
  In (mkMount "/a/data" "/home/node/.openclaw/workspace/data" false) mounts /\
  In (mkMount "/b/data" "/home/node/.openclaw/workspace/data" false) mounts /\
  ~ NoDup (map containerPath mounts).
Proof.
  split; [|split].
  - vm_compute. tauto.
  - vm_compute. tauto.
  - rewrite workspace_containers. intros H.
    apply NoDup_app_remove_l in H. vm_compute in H.
    inversion H as [|x l Hx _]. apply Hx. now left.
Qed.

(** ** Toggling in the browser *)

Lemma fold_add_In (pre : string) (fl : list FileNode) (acc : JsSet.t) (x : string) :
  In x (fold_left
          (fun acc child =>
             if startsWith (path child) pre then JsSet.add (path child) acc else acc)
          fl acc) <->
  In x acc \/ (In x (map path fl) /\ startsWith x pre = true).
Proof.
  revert acc. induction fl as [|c fl IH]; intros acc; simpl.
  - tauto.
  - rewrite IH. destruct (startsWith (path c) pre) eqn:E.
    + rewrite In_add. intuition (subst; auto).
    + intuition (subst; congruence).
Qed.

Lemma fold_delete_In (pre : string) (fl : list FileNode) (acc : JsSet.t) (x : string) :
  In x (fold_left
          (fun acc child =>
             if startsWith (path child) pre then JsSet.delete (path child) acc else acc)
          fl acc) <->
  In x acc /\ ~ (In x (map path fl) /\ startsWith x pre = true).
Proof.
  revert acc. induction fl as [|c fl IH]; intros acc; simpl.
  - tauto.
  - rewrite IH. destruct (startsWith (path c) pre) eqn:E.
    + rewrite In_delete. intuition (subst; auto).
    + intuition (subst; congruence).
Qed.

(** Toggling an unselected node adds it and, for a directory, the listed
    paths under it. *)
Lemma toggle_select (fl : list FileNode) (node : FileNode) (sel : JsSet.t) (x : string) :
  ~ In (path node) sel ->
  (In x (toggleSelection fl node sel) <->
   In x sel \/ x = path node \/ listedUnder fl node x).
Proof.
  intros Hn. apply has_false in Hn. unfold toggleSelection, listedUnder. rewrite Hn.
  destruct (isDirectory node).
  - rewrite fold_add_In, In_add. tauto.
  - rewrite In_add. intuition congruence.
Qed.

(** Toggling a selected node removes it and, for a directory, the listed
    paths under it. *)
Lemma toggle_deselect (fl : list FileNode) (node : FileNode) (sel : JsSet.t) (x : string) :
  In (path node) sel ->
  (In x (toggleSelection fl node sel) <->
   In x sel /\ x <> path node /\ ~ listedUnder fl node x).
Proof.
  intros Hn. apply has_In in Hn. unfold toggleSelection, listedUnder. rewrite Hn.
  destruct (isDirectory node).
  - rewrite fold_delete_In, In_delete. tauto.
  - rewrite In_delete. intuition congruence.
Qed.

Lemma listedUnder_dec (fl : list FileNode) (node : FileNode) (x : string) :
  listedUnder fl node x \/ ~ listedUnder fl node x.
Proof.
  unfold listedUnder.
  destruct (isDirectory node); [|right; intuition congruence].
  destruct (startsWith x (path node ++ "/")); [|right; intuition congruence].
  destruct (in_dec string_dec x (map path fl)); [left | right]; tauto.
Qed.

Lemma listedUnder_neq (fl : list FileNode) (node : FileNode) (x : string) :
  listedUnder fl node x -> x <> path node.
Proof.
  intros [_ [_ H]] ->. apply startsWith_iff in H. destruct H as [r Hr].
  apply (f_equal String.length) in Hr.
  rewrite !length_append in Hr. simpl in Hr. lia.
Qed.

(** Two toggles of the same node, on the level of the selection. *)
Lemma toggle_toggle (fl : list FileNode) (node : FileNode) (sel : JsSet.t) :
  (forall x, listedUnder fl node x -> (In x sel <-> In (path node) sel)) ->
  forall x, In x (toggleSelection fl node (toggleSelection fl node sel)) <-> In x sel.
Proof.
  intros Huni x.
  pose proof (listedUnder_neq fl node) as Hneq.
  destruct (in_dec string_dec (path node) sel) as [Hin|Hout].
  - assert (H1 : ~ In (path node) (toggleSelection fl node sel)).
    { rewrite toggle_deselect by assumption. tauto. }
    rewrite toggle_select by assumption.
    rewrite toggle_deselect by assumption.
    destruct (string_dec x (path node)) as [->|Hx]; [tauto|].
    destruct (listedUnder_dec fl node x) as [Hl|Hl]; [|tauto].
    pose proof (Huni x Hl). tauto.
  - assert (H1 : In (path node) (toggleSelection fl node sel)).
    { rewrite toggle_select by assumption. tauto. }
    rewrite toggle_deselect by assumption.
    rewrite toggle_select by assumption.
    split.
    + intros [[H|[H|H]] [Hx Hl]]; tauto.
    + intros H. split; [now left|]. split.
      * intros ->. contradiction.
      * intros Hl. apply Hout. now apply (Huni x Hl).
Qed.

(** C3, amended.  When the node under the cursor and the listed paths
    under it are all selected or all unselected, two presses of [space]
    leave the tree, the flat list and the cursor as they were and the
    selection with the same paths. *)
Theorem toggle_twice_restores (st : BrowserState) (node : FileNode) :
  at_cursor (st_flatList st) (st_cursor st) = Some node ->
  (forall x, listedUnder (st_flatList st) node x ->
     (In x (st_selected st) <-> In (path node) (st_selected st))) ->
  exists st',
    runKeys st [KeySpace; KeySpace] = Continue st' /\
    st_tree st' = st_tree st /\ st_flatList st' = st_flatList st /\
    st_cursor st' = st_cursor st /\
    forall x, In x (st_selected st') <-> In x (st_selected st).
Proof.
  intros Hcur Huni. simpl. rewrite Hcur. simpl. rewrite Hcur.
  eexists. split; [reflexivity|]. simpl. repeat split; try reflexivity;
    now apply toggle_toggle.
Qed.

Ltac length_clash H :=
  apply (f_equal String.length) in H;
  repeat rewrite length_append in H; simpl in H; lia.

(** C2, amended.  Selecting a directory selects the listed child with it;
    deselecting that child afterwards leaves the directory selected.  When
    no ancestor of the directory was selected before, the reduced denied
    set then holds the directory itself and nothing below it: neither the
    deselected child nor any other child. *)
Theorem select_then_deselect_child
  (fl : list FileNode) (dir child : FileNode) (sel : JsSet.t) (rest : string) :
  isDirectory dir = true ->
  ~ In (path dir) sel ->
  In child fl ->
  path child = path dir ++ "/" ++ rest ->
  (forall a r, In a sel -> path dir <> a ++ "/" ++ r) ->
  let sel1 := toggleSelection fl dir sel in
  let sel2 := toggleSelection fl child sel1 in
  In (path child) sel1 /\
  ~ In (path child) sel2 /\
  In (path dir) (reduceSelection sel2) /\
  forall r, ~ In (path dir ++ "/" ++ r) (reduceSelection sel2).
Proof.
  intros Hdir Hout Hchild Hpath Hanc sel1 sel2.
  assert (Hunder : listedUnder fl dir (path child)).
  { split; [assumption|]. split; [now apply in_map|].
    apply startsWith_iff. exists rest. now rewrite Hpath, append_assoc. }
  assert (H1 : In (path child) sel1).
  { apply toggle_select; [assumption|]. now right; right. }
  assert (Hd1 : In (path dir) sel1).
  { apply toggle_select; [assumption|]. now right; left. }
  assert (Hd2 : In (path dir) sel2).
  { apply toggle_deselect; [assumption|]. split; [assumption|]. split.
    - intros E. rewrite Hpath in E. length_clash E.
    - intros [_ [_ H]]. apply startsWith_iff in H. destruct H as [r Hr].
      rewrite Hpath in Hr. length_clash Hr. }
  split; [assumption|]. split; [|split].
  - intros H. apply toggle_deselect in H; [|assumption]. tauto.
  - apply In_reduceSelection. split; [assumption|].
    intros a r Ha E.
    apply toggle_deselect in Ha; [|assumption]. destruct Ha as [Ha _].
    apply toggle_select in Ha; [|assumption].
    destruct Ha as [Ha|[->|[_ [_ Ha]]]].
    + exact (Hanc a r Ha E).
    + length_clash E.
    + apply startsWith_iff in Ha. destruct Ha as [r' ->]. length_clash E.
  - intros r H. apply In_reduceSelection in H. destruct H as [_ H].
    exact (H (path dir) r Hd2 eq_refl).
Qed.

Lemma select_then_deselect_child_witness :
  let fl := st_flatList Example.projExpanded in
  let sel1 := toggleSelection fl Example.projOpen [] in
  let sel2 := toggleSelection fl Example.aTxt sel1 in
  In (path Example.aTxt) sel1 /\
  ~ In (path Example.aTxt) sel2 /\
  In (path Example.projOpen) (reduceSelection sel2) /\
  forall r, ~ In (path Example.projOpen ++ "/" ++ r) (reduceSelection sel2).
Proof.
  apply (select_then_deselect_child (st_flatList Example.projExpanded)
           Example.projOpen Example.aTxt [] "a.txt").
  - reflexivity.
  - simpl. tauto.
  - vm_compute. tauto.
  - reflexivity.
  - intros a r H. destruct H.
Defined.

(** C2 as stated fails.  With [proj] expanded, [space] on it selects it
    with both children; [space] on [a.txt] deselects that child only; at
    Confirm the reduction returns [proj] alone, not [b.txt]. *)
Lemma deselecting_child_keeps_directory :
  exists s1 s2 r,
    runKeys Example.projExpanded [KeySpace] = Continue s1 /\
    st_selected s1 = ["/home/u/proj"; "/home/u/proj/a.txt"; "/home/u/proj/b.txt"] /\
    runKeys s1 [KeyDown; KeySpace] = Continue s2 /\
    st_selected s2 = ["/home/u/proj"; "/home/u/proj/b.txt"] /\
    handleKeypress s2 KeyReturn = Resolve r /\
    ignoredPaths r = ["/home/u/proj"] /\
    In "/home/u/proj" (ignoredPaths r) /\
    ~ In "/home/u/proj/b.txt" (ignoredPaths r).
Proof.
  do 3 eexists. split; [reflexivity|]. split; [reflexivity|].
  split; [reflexivity|]. split; [reflexivity|]. split; [reflexivity|].
  split; [reflexivity|]. split; [now left|].
  intros [H|[]]. discriminate H.
Qed.

Lemma toggle_twice_restores_witness :
  exists st',
    runKeys Example.projExpanded [KeySpace; KeySpace] = Continue st' /\
    st_tree st' = st_tree Example.projExpanded /\
    st_flatList st' = st_flatList Example.projExpanded /\
    st_cursor st' = st_cursor Example.projExpanded /\
    forall x, In x (st_selected st') <-> In x (st_selected Example.projExpanded).
Proof.
  apply (toggle_twice_restores Example.projExpanded Example.projOpen).
  - reflexivity.
  - intros x _. simpl. tauto.
Defined.

(** C3 as stated fails.  With [proj] expanded and only its child [a.txt]
    selected, two presses of [space] on [proj] first select [proj] and
    [b.txt] too and then deselect all three: the child selected on its own
    is gone. *)
Lemma toggle_twice_drops_selected_child :
  exists s0 s1 s2,
    runKeys Example.projExpanded [KeyDown; KeySpace; KeyUp] = Continue s0 /\
    at_cursor (st_flatList s0) (st_cursor s0) = Some Example.projOpen /\
    st_selected s0 = ["/home/u/proj/a.txt"] /\
    runKeys s0 [KeySpace] = Continue s1 /\
    st_selected s1 = ["/home/u/proj/a.txt"; "/home/u/proj"; "/home/u/proj/b.txt"] /\
    runKeys s1 [KeySpace] = Continue s2 /\
    st_selected s2 = [] /\
    st_selected s2 <> st_selected s0.
Proof.
  do 3 eexists. repeat (split; [reflexivity|]). discriminate.
Qed.

(** C4: the code at the inputs where it departs from the claim.  The flat
    list holds the expanded part of the tree only.  With [proj] collapsed,
    [space] on it selects [proj] alone, though its children are known.
    With [.aws] collapsed and [.aws] and [.aws/credentials] pre-selected by
    the review phase, [space] on [.aws] deselects [.aws] alone, and Confirm
    returns the child. *)
Theorem toggle_reaches_listed_nodes_only :
  In "/home/u/proj/a.txt" (map path (knownNodes Example.tree)) /\
  startsWith "/home/u/proj/a.txt" ("/home/u/proj" ++ "/") = true /\
  (exists s,
     runKeys (initialState Example.tree []) [KeyDown; KeySpace] = Continue s /\
     st_selected s = ["/home/u/proj"]) /\
  Example.preSelected = ["/home/u/.aws"; "/home/u/.aws/credentials"] /\
  startsWith "/home/u/.aws/credentials" ("/home/u/.aws" ++ "/") = true /\
  (exists s r,
     runKeys (initialState Example.tree Example.preSelected) [KeySpace] = Continue s /\
     st_selected s = ["/home/u/.aws/credentials"] /\
     handleKeypress s KeyReturn = Resolve r /\
     ignoredPaths r = ["/home/u/.aws/credentials"]).
Proof.
  split; [vm_compute; tauto|]. split; [reflexivity|].
  split; [eexists; split; reflexivity|].
  split; [reflexivity|]. split; [reflexivity|].
  do 2 eexists. repeat (split; [reflexivity|]). reflexivity.
Qed.

(** ** The order of siblings *)

Section SortFacts.
Context {A : Type} (cmp : A -> A -> Z).

(** The comparator is consistent: any two elements are comparable, and
    the comparison is transitive. *)
Hypothesis cmp_total : forall a b, (cmp a b <= 0)%Z \/ (cmp b a <= 0)%Z.
Hypothesis cmp_trans :
  forall a b c, (cmp a b <= 0)%Z -> (cmp b c <= 0)%Z -> (cmp a c <= 0)%Z.

Let le (a b : A) : Prop := (cmp a b <= 0)%Z.

Lemma insertSorted_In (x y : A) (l : list A) :
  In y (insertSorted cmp x l) <-> y = x \/ In y l.
Proof.
  induction l as [|z l IH]; simpl.
  - intuition.
  - destruct (cmp x z <=? 0)%Z; simpl; [intuition|].
    rewrite IH. intuition.
Qed.

Lemma insertSorted_sorted (x : A) (l : list A) :
  StronglySorted le l -> StronglySorted le (insertSorted cmp x l).
Proof.
  induction 1 as [|z l Hs IH Hz]; simpl.
  - repeat constructor.
  - destruct (Z.leb_spec (cmp x z) 0) as [Hle|Hgt].
    + constructor; [now constructor|].
      constructor; [exact Hle|].
      eapply Forall_impl; [|exact Hz]. intros w Hw. exact (cmp_trans x z w Hle Hw).
    + constructor; [exact IH|].
      apply Forall_forall. intros w Hw. apply insertSorted_In in Hw.
      destruct Hw as [->|Hw].
      * destruct (cmp_total x z) as [H|H]; [lia | exact H].
      * rewrite Forall_forall in Hz. now apply Hz.
Qed.

Lemma sortWith_sorted (l : list A) : StronglySorted le (sortWith cmp l).
Proof.
  induction l as [|x l IH]; simpl; [constructor|].
  now apply insertSorted_sorted.
Qed.

Lemma sortWith_In (y : A) (l : list A) : In y (sortWith cmp l) <-> In y l.
Proof.
  induction l as [|x l IH]; simpl; [tauto|].
  rewrite insertSorted_In, IH. intuition.
Qed.

End SortFacts.

(** Keeping at most one image per element keeps a sorted list sorted. *)
Lemma flat_map_sorted {A B : Type} (R : A -> A -> Prop) (R' : B -> B -> Prop)
  (f : A -> list B) (l : list A) :
  (forall a, f a = [] \/ exists b, f a = [b]) ->
  (forall a a' b b', R a a' -> In b (f a) -> In b' (f a') -> R' b b') ->
  StronglySorted R l -> StronglySorted R' (flat_map f l).
Proof.
  intros Hone Hmono. induction 1 as [|a l Hs IH Ha]; simpl; [constructor|].
  destruct (Hone a) as [E|[b E]]; rewrite E; simpl; [exact IH|].
  constructor; [exact IH|].
  apply Forall_forall. intros b' Hb'. apply in_flat_map in Hb'.
  destruct Hb' as [a' [Ha' Hb']].
  rewrite Forall_forall in Ha.
  apply (Hmono a a' b b' (Ha a' Ha')); [rewrite E; now left | assumption].
Qed.

Section SiblingOrder.

Variable readdir : string -> option (list Dirent).
Variable localeCompare : string -> string -> Z.
Variable pathJoin : string -> string -> string.
Variable pathRelative : string -> string -> string.

Hypothesis localeCompare_total :
  forall a b, (localeCompare a b <= 0)%Z \/ (localeCompare b a <= 0)%Z.
Hypothesis localeCompare_trans :
  forall a b c, (localeCompare a b <= 0)%Z -> (localeCompare b c <= 0)%Z ->
                (localeCompare a c <= 0)%Z.

Lemma compareEntries_le (a b : Dirent) :
  (compareEntries localeCompare a b <= 0)%Z <->
  (entryIsDirectory a = true /\ entryIsDirectory b = false) \/
  (entryIsDirectory a = entryIsDirectory b /\
   (localeCompare (entryName a) (entryName b) <= 0)%Z).
Proof.
  unfold compareEntries.
  destruct (entryIsDirectory a), (entryIsDirectory b); simpl;
    intuition (try discriminate; try lia).
Qed.

Lemma compareEntries_total (a b : Dirent) :
  (compareEntries localeCompare a b <= 0)%Z \/ (compareEntries localeCompare b a <= 0)%Z.
Proof.
  rewrite !compareEntries_le.
  destruct (localeCompare_total (entryName a) (entryName b));
    destruct (entryIsDirectory a), (entryIsDirectory b); auto.
Qed.

Lemma compareEntries_trans (a b c : Dirent) :
  (compareEntries localeCompare a b <= 0)%Z ->
  (compareEntries localeCompare b c <= 0)%Z ->
  (compareEntries localeCompare a c <= 0)%Z.
Proof.
  rewrite !compareEntries_le.
  intros [[H1 H2]|[H1 H2]] [[H3 H4]|[H3 H4]]; try congruence.
  - left. split; congruence.
  - left. split; congruence.
  - right. split; [congruence|]. eapply localeCompare_trans; eassumption.
Qed.

Lemma buildLevels_ordered (levels : nat) (dir rootPath : string) (depth : nat) :
  SiblingsOrdered localeCompare
    (buildLevels readdir localeCompare pathJoin pathRelative levels dir rootPath depth).
Proof.
  revert dir depth. induction levels as [|levels IH]; intros dir depth; simpl.
  - constructor; [constructor | intros n cs []].
  - destruct (readdir dir) as [entries|]; [|constructor; [constructor | intros n cs []]].
    constructor.
    + apply flat_map_sorted
        with (R := fun a b => (compareEntries localeCompare a b <= 0)%Z).
      * intros e. destruct (skipped depth e); [now left | right; eauto].
      * intros e e' n n' Hle Hn Hn'.
        destruct (skipped depth e); [destruct Hn|].
        destruct (skipped depth e'); [destruct Hn'|].
        destruct Hn as [<-|[]]. destruct Hn' as [<-|[]].
        unfold nodeBefore. simpl. now apply compareEntries_le.
      * apply sortWith_sorted.
        -- exact compareEntries_total.
        -- exact compareEntries_trans.
    + intros n cs Hn Hcs. apply in_flat_map in Hn.
      destruct Hn as [e [_ Hn]].
      destruct (skipped depth e); [destruct Hn|].
      destruct Hn as [<-|[]]. simpl in Hcs.
      destruct (entryIsDirectory e); [|discriminate].
      inversion Hcs. apply IH.
Qed.

(** C8.  For a consistent [localeCompare], every sibling list the tree
    builder produces, at every level, has its directories before its files
    and, within each of the two, its names in the order of
    [localeCompare]. *)
Theorem tree_builder_orders_siblings (dir rootPath : string) (depth maxDepth : nat) :
  SiblingsOrdered localeCompare
    (buildFileTree readdir localeCompare pathJoin pathRelative dir rootPath depth maxDepth).
Proof. apply buildLevels_ordered. Qed.

End SiblingOrder.

(** Comparison by code units is consistent. *)
Lemma codeUnitCompare_total (a b : string) :
  (Example.codeUnitCompare a b <= 0)%Z \/ (Example.codeUnitCompare b a <= 0)%Z.
Proof.
  unfold Example.codeUnitCompare. rewrite (String.compare_antisym a b).
  destruct (String.compare b a); simpl; lia.
Qed.

Lemma codeUnitCompare_trans (a b c : string) :
  (Example.codeUnitCompare a b <= 0)%Z -> (Example.codeUnitCompare b c <= 0)%Z ->
  (Example.codeUnitCompare a c <= 0)%Z.
Proof.
  unfold Example.codeUnitCompare.
  destruct (String.compare a b) eqn:Eab; try lia;
    destruct (String.compare b c) eqn:Ebc; try lia; intros _ _.
  - apply String.compare_eq_iff in Eab, Ebc. subst.
    pose proof (proj2 (OrderedTypeEx.String_as_OT.cmp_eq c c) eq_refl) as H.
    unfold OrderedTypeEx.String_as_OT.cmp in H. rewrite H. lia.
  - apply String.compare_eq_iff in Eab. subst. now rewrite Ebc.
  - apply String.compare_eq_iff in Ebc. subst. now rewrite Eab.
  - apply OrderedTypeEx.String_as_OT.cmp_lt in Eab, Ebc.
    pose proof (OrderedTypeEx.String_as_OT.lt_trans _ _ _ Eab Ebc) as H.
    apply OrderedTypeEx.String_as_OT.cmp_lt in H.
    unfold OrderedTypeEx.String_as_OT.cmp in H. rewrite H. lia.
Qed.

Lemma tree_builder_orders_siblings_witness :
  SiblingsOrdered Example.codeUnitCompare Example.tree.
Proof.
  exact (tree_builder_orders_siblings Example.readdir Example.codeUnitCompare
           Example.joinBelow Example.relativeBelow
           codeUnitCompare_total codeUnitCompare_trans "/home/u" "/home/u" 0 3).
Defined.

(** ** The model against the source's recursion and its [Set] *)

(** [buildFileTree] satisfies the equation the source is written as: it
    stops at [depth >= maxDepth], and a directory's children are the tree
    built one level deeper with the same bound. *)
Lemma buildFileTree_unfold
  (readdir : string -> option (list Dirent)) (localeCompare : string -> string -> Z)
  (pathJoin pathRelative : string -> string -> string)
  (dir rootPath : string) (depth maxDepth : nat) :
  buildFileTree readdir localeCompare pathJoin pathRelative dir rootPath depth maxDepth =
  if (maxDepth <=? depth)%nat then []
  else match readdir dir with
       | None => []
       | Some entries =>
           flat_map
             (fun entry =>
                if skipped depth entry then []
                else
                  let fullPath := pathJoin dir (entryName entry) in
                  let rel := pathRelative rootPath fullPath in
                  [ mkFileNode (entryName entry) fullPath
                      (if truthy rel then rel else entryName entry)
                      (entryIsDirectory entry)
                      (if entryIsDirectory entry
                       then Some (buildFileTree readdir localeCompare pathJoin
                                    pathRelative fullPath rootPath (S depth) maxDepth)
                       else None)
                      false false depth
                      (isSensitivePath (entryName entry) fullPath) ])
             (sortWith (compareEntries localeCompare) entries)
       end.
Proof.
  unfold buildFileTree. destruct (Nat.leb_spec maxDepth depth) as [H|H].
  - replace (maxDepth - depth) with 0 by lia. reflexivity.
  - replace (maxDepth - depth) with (S (maxDepth - S depth)) by lia. reflexivity.
Qed.

(** The selection never holds a path twice, as a [Set] does not. *)
Lemma NoDup_ofList (l : list string) : NoDup (JsSet.ofList l).
Proof.
  unfold JsSet.ofList.
  assert (H : forall acc, NoDup acc -> NoDup (fold_left (fun s x => JsSet.add x s) l acc)).
  { induction l as [|x l IH]; intros acc Hacc; simpl; [assumption|].
    apply IH. now apply NoDup_add. }
  apply H. constructor.
Qed.

Lemma NoDup_toggleSelection (fl : list FileNode) (node : FileNode) (sel : JsSet.t) :
  NoDup sel -> NoDup (toggleSelection fl node sel).
Proof.
  intros Hsel. unfold toggleSelection.
  assert (Hadd : forall pre l acc, NoDup acc ->
            NoDup (fold_left
                     (fun acc child =>
                        if startsWith (path child) pre
                        then JsSet.add (path child) acc else acc) l acc)).
  { intros pre l. induction l as [|c l IH]; intros acc Hacc; simpl; [assumption|].
    apply IH. destruct (startsWith (path c) pre); [now apply NoDup_add | assumption]. }
  assert (Hdel : forall pre l acc, NoDup acc ->
            NoDup (fold_left
                     (fun acc child =>
                        if startsWith (path child) pre
                        then JsSet.delete (path child) acc else acc) l acc)).
  { intros pre l. induction l as [|c l IH]; intros acc Hacc; simpl; [assumption|].
    apply IH. destruct (startsWith (path c) pre); [now apply NoDup_delete | assumption]. }
  destruct (JsSet.has sel (path node)), (isDirectory node);
    auto using NoDup_add, NoDup_delete.
Qed.

Lemma NoDup_handleKeypress (st st' : BrowserState) (key : Key) :
  NoDup (st_selected st) -> handleKeypress st key = Continue st' ->
  NoDup (st_selected st').
Proof.
  intros Hnd. destruct key; simpl;
    try (destruct (at_cursor (st_flatList st) (st_cursor st)) as [node|]; [|discriminate]);
    try match goal with
        | |- context [if ?b then _ else _] => destruct b
        end;
    intros E; inversion E; subst; simpl; auto using NoDup_toggleSelection.
Qed.

(** The list Confirm returns holds no path twice either. *)
Lemma NoDup_reduceSelection (sel : JsSet.t) : NoDup sel -> NoDup (reduceSelection sel).
Proof. apply NoDup_filter. Qed.

(** Expanding [proj] lists its children after it. *)
Example projExpanded_flatList :
  map path (st_flatList Example.projExpanded) =
  [ "/home/u/.aws"; "/home/u/proj"; "/home/u/proj/a.txt"; "/home/u/proj/b.txt";
    "/home/u/notes.txt" ] /\
  at_cursor (st_flatList Example.projExpanded) (st_cursor Example.projExpanded)
  = Some Example.projOpen.
Proof. split; reflexivity. Qed.

(** * Further properties of the code *)

(** ** Reduction and denial *)

Lemma filter_all {A : Type} (f : A -> bool) (l : list A) :
  (forall x, In x l -> f x = true) -> filter f l = l.
Proof.
  induction l as [|x l IH]; intros H; simpl; [reflexivity|].
  rewrite (H x (or_introl eq_refl)), IH; [reflexivity|].
  intros y Hy. apply H. now right.
Qed.

(** X1.  Reducing a selection a second time changes nothing: the list
    Confirm returns is a fixed point of the reduction. *)
Theorem reduceSelection_idempotent (sel : JsSet.t) :
  reduceSelection (reduceSelection sel) = reduceSelection sel.
Proof.
  unfold reduceSelection at 1. apply filter_all.
  intros p Hp. apply negb_true_iff.
  destruct (parentSelected (reduceSelection sel) p) eqn:E; [|reflexivity].
  apply parentSelected_iff in E. destruct E as [a [r [Ha E]]].
  apply In_reduceSelection in Ha. apply In_reduceSelection in Hp.
  exfalso. exact (proj2 Hp a r (proj1 Ha) E).
Qed.

Lemma isIgnored_under (p d : string) (ignored : list string) :
  In d ignored -> (p = d \/ exists r, p = d ++ String slash r) ->
  isIgnored p ignored = true.
Proof.
  intros Hd H. apply isIgnored_iff. exists d. split; [assumption|].
  destruct H as [->|[r ->]]; [now left | right].
  apply startsWith_iff. exists r. now rewrite append_assoc.
Qed.

(** X2.  The mount compiler denies the same paths under the reduced list
    as under the whole selection, so reducing changes nothing in what gets
    mounted. *)
Theorem reduction_keeps_denial (sel : JsSet.t) :
  (forall p, isIgnored p (reduceSelection sel) = isIgnored p sel) /\
  (forall all, pathsToMount all (reduceSelection sel) = pathsToMount all sel).
Proof.
  assert (H : forall p, isIgnored p (reduceSelection sel) = isIgnored p sel).
  { intros p. apply eq_true_iff_eq. rewrite !isIgnored_iff. split.
    - intros [d [Hd H]]. exists d. split; [|assumption].
      apply In_reduceSelection in Hd. tauto.
    - intros [d [Hd H]].
      destruct (reduceSelection_covers sel d Hd) as [c [Hc Hcov]].
      exists c. split; [assumption|].
      destruct H as [->|H].
      + destruct Hcov as [->|[r ->]]; [now left | right].
        apply startsWith_iff. exists r. now rewrite append_assoc.
      + right. apply startsWith_iff in H. destruct H as [r ->].
        apply startsWith_iff.
        destruct Hcov as [->|[r' ->]]; [now exists r|].
        exists (r' ++ "/" ++ r). now rewrite !append_assoc. }
  split; [exact H|].
  intros all. unfold pathsToMount. apply filter_ext. intros p. now rewrite H.
Qed.

(** X3.  The reader of the compiler and the reader of the ignore-list
    writer return the same patterns for every content. *)
Theorem readers_agree (content : string) :
  Writer.parseExistingPatterns content = parseClawignore content.
Proof.
  unfold Writer.parseExistingPatterns, parseClawignore.
  apply filter_ext. intros t.
  destruct (truthy t), (startsWith t "#"); reflexivity.
Qed.

(** ** What gets mounted *)

(** X4.  The volume list is the fifteen fixed mounts, in their order,
    followed by read-write mounts only; each of these mounts one of
    [allPaths] that no denied path covers, that [stat] reports as a
    directory and whose base name is not [.openclaw], at the workspace
    directory of its base name. *)
Theorem volume_mounts_shape (home : string) (stat : string -> option bool)
  (all ignored : list string) :
  exists selected,
    generateVolumeMounts home stat (pathsToMount all ignored)
    = (baselineMounts home ++ selected)%list /\
    List.length (baselineMounts home) = 15 /\
    Forall
      (fun m =>
         In (hostPath m) all /\
         isIgnored (hostPath m) ignored = false /\
         stat (hostPath m) = Some true /\
         Path.basename (hostPath m) <> ".openclaw" /\
         containerPath m = workspacePrefix ++ Path.basename (hostPath m) /\
         readOnly m = false)
      selected.
Proof.
  eexists. split; [apply generateVolumeMounts_eq|]. split; [reflexivity|].
  apply Forall_forall. intros m Hm. apply in_map_iff in Hm.
  destruct Hm as [p [<- Hp]]. apply filter_In in Hp. destruct Hp as [Hp Hm].
  unfold pathsToMount in Hp. apply filter_In in Hp. destruct Hp as [Hall Hig].
  apply negb_true_iff in Hig. unfold mounted in Hm. simpl.
  destruct (String.eqb_spec (Path.basename p) ".openclaw") as [E|E];
    [discriminate|].
  destruct (endsWith p "/.openclaw"); [discriminate|]. simpl in Hm.
  destruct (stat p) as [[|]|]; try discriminate.
  repeat split; assumption.
Qed.

(** X5.  Nothing allowed is left out: a path of [allPaths] that no denied
    path covers, that is a directory and is not an [.openclaw] directory,
    is mounted read-write under the workspace. *)
Theorem allowed_directory_is_mounted (home : string) (stat : string -> option bool)
  (all ignored : list string) (p : string) :
  In p all ->
  isIgnored p ignored = false ->
  stat p = Some true ->
  Path.basename p <> ".openclaw" ->
  endsWith p "/.openclaw" = false ->
  In (mkMount p (workspacePrefix ++ Path.basename p) false)
     (generateVolumeMounts home stat (pathsToMount all ignored)).
Proof.
  intros Hall Hig Hstat Hname Hend. rewrite generateVolumeMounts_eq.
  apply in_or_app. right.
  change (mkMount p (workspacePrefix ++ Path.basename p) false) with (workspaceMount p).
  apply in_map. apply filter_In. split.
  - apply filter_In. split; [assumption|]. now rewrite Hig.
  - unfold mounted. rewrite Hend, Hstat.
    destruct (String.eqb_spec (Path.basename p) ".openclaw"); [contradiction|reflexivity].
Qed.

Lemma allowed_directory_is_mounted_witness :
  In (mkMount "/home/u/project" (workspacePrefix ++ Path.basename "/home/u/project") false)
     (generateVolumeMounts "/home/u" (fun _ => Some true)
        (pathsToMount ["/home/u/Documents"; "/home/u/.ssh"; "/home/u/project"]
           ["/home/u/.ssh"])).
Proof.
  apply (allowed_directory_is_mounted "/home/u" (fun _ => Some true)
           ["/home/u/Documents"; "/home/u/.ssh"; "/home/u/project"] ["/home/u/.ssh"]
           "/home/u/project").
  - simpl. tauto.
  - reflexivity.
  - reflexivity.
  - discriminate.
  - reflexivity.
Defined.

(** ** The cursor *)

Lemma at_cursor_None {A : Type} (arr : list A) (cursor : Z) :
  at_cursor arr cursor = None <-> ~ (0 <= cursor < lengthZ arr)%Z.
Proof.
  unfold at_cursor, lengthZ. destruct (Z.ltb_spec cursor 0) as [H|H].
  - split; [lia | reflexivity].
  - rewrite nth_error_None. lia.
Qed.

Lemma at_cursor_Some {A : Type} (arr : list A) (cursor : Z) (x : A) :
  at_cursor arr cursor = Some x ->
  (0 <= cursor < lengthZ arr)%Z /\ nth_error arr (Z.to_nat cursor) = Some x.
Proof.
  intros H.
  destruct (at_cursor arr cursor) eqn:E in H; [|discriminate].
  assert (Hin : (0 <= cursor < lengthZ arr)%Z).
  { destruct (Z.le_gt_cases 0 cursor) as [H0|H0];
      [destruct (Z.lt_ge_cases cursor (lengthZ arr)) as [H1|H1]; [lia|]|];
      assert (at_cursor arr cursor = None) by (apply at_cursor_None; lia);
      congruence. }
  split; [assumption|].
  unfold at_cursor in *. destruct (Z.ltb_spec cursor 0); [lia | congruence].
Qed.

(** X6.  [space], expand and collapse read the node under the cursor: they
    throw exactly when the cursor is outside the flat list, as it is on an
    empty list.  No other key throws. *)
Theorem throws_iff_cursor_outside (st : BrowserState) (key : Key) :
  handleKeypress st key = Throw <->
  (key = KeySpace \/ key = KeyRight \/ key = KeyLeft) /\
  ~ (0 <= st_cursor st < lengthZ (st_flatList st))%Z.
Proof.
  rewrite <- at_cursor_None.
  destruct key; simpl;
    try (split; [discriminate | intros [[H|[H|H]] _]; discriminate H]);
    destruct (at_cursor (st_flatList st) (st_cursor st)) as [node|];
    try (split; [tauto | reflexivity]);
    try match goal with
        | |- context [if ?b then _ else _] => destruct b
        end;
    split; try discriminate; intros [_ H]; discriminate H.
Qed.

(** X7.  Toggling a node under which nothing is listed, as under a file
    or a collapsed folder, flips that one path and leaves every other path
    of the selection as it was. *)
Theorem toggle_flips_one_path (fl : list FileNode) (node : FileNode) (sel : JsSet.t) :
  (forall x, ~ listedUnder fl node x) ->
  (In (path node) (toggleSelection fl node sel) <-> ~ In (path node) sel) /\
  (forall x, x <> path node ->
     (In x (toggleSelection fl node sel) <-> In x sel)).
Proof.
  intros Hnone.
  destruct (in_dec string_dec (path node) sel) as [Hin|Hout].
  - split.
    + rewrite toggle_deselect by assumption. tauto.
    + intros x Hx. rewrite toggle_deselect by assumption.
      pose proof (Hnone x). tauto.
  - split.
    + rewrite toggle_select by assumption. tauto.
    + intros x Hx. rewrite toggle_select by assumption.
      pose proof (Hnone x). tauto.
Qed.

Lemma toggle_flips_one_path_witness :
  (In (path Example.aTxt)
      (toggleSelection (st_flatList Example.projExpanded) Example.aTxt ["/home/u/proj"])
   <-> ~ In (path Example.aTxt) ["/home/u/proj"]) /\
  (forall x, x <> path Example.aTxt ->
     (In x (toggleSelection (st_flatList Example.projExpanded) Example.aTxt ["/home/u/proj"])
      <-> In x ["/home/u/proj"])).
Proof.
  apply (toggle_flips_one_path (st_flatList Example.projExpanded) Example.aTxt
           ["/home/u/proj"]).
  intros x [H _]. discriminate H.
Defined.

(** ** Expanding and collapsing *)

(** Induction over a node and the nodes below it. *)
Lemma FileNode_nested_ind (P : FileNode -> Prop) :
  (forall n, (forall cs, children n = Some cs -> Forall P cs) -> P n) ->
  forall n, P n.
Proof.
  intros H. fix F 1. intros [nm p r d ch e s dp sens]. apply H. simpl.
  intros cs E. destruct ch as [l|]; [|discriminate].
  injection E as <-. revert l. fix G 1.
  intros [|x l]; constructor; [apply F | apply G].
Qed.

Lemma setExpandedInNode_S (b : bool) (k : nat) (n : FileNode) :
  setExpandedInNode b (S k) n =
  match children n with
  | Some cs => withChildren (Some (setExpandedAt b k cs)) n
  | None => n
  end.
Proof.
  destruct n as [nm p r d ch e s dp sens]. simpl.
  destruct ch as [cs|]; [|reflexivity]. unfold withChildren. simpl.
  do 2 f_equal. revert k.
  induction cs as [|c cs IH]; intros k; simpl; [reflexivity|].
  destruct (k <? List.length (flattenNode c))%nat; [reflexivity|].
  now rewrite IH.
Qed.

Lemma setExpandedInNode_0 (b : bool) (n : FileNode) :
  setExpandedInNode b 0 n = withExpanded b n.
Proof. destruct n; reflexivity. Qed.

Lemma flattenNode_unfold (n : FileNode) :
  flattenNode n =
  n :: (if isDirectory n && expanded n then shownChildren n else []).
Proof. destruct n as [nm p r d [cs|] e s dp sens]; reflexivity. Qed.

Lemma flattenTree_cons (n : FileNode) (l : list FileNode) :
  flattenTree (n :: l) = (flattenNode n ++ flattenTree l)%list.
Proof. reflexivity. Qed.

Lemma shallow_withChildren (cs : option (list FileNode)) (n : FileNode) :
  shallow (withChildren cs n) = shallow n.
Proof. reflexivity. Qed.

Lemma Replaced_list (b : bool) (l : list FileNode) :
  Forall (fun n => forall k m, nth_error (flattenNode n) k = Some m ->
                   Replaced b (flattenNode n) (flattenNode (setExpandedInNode b k n)) k m) l ->
  forall k m, nth_error (flattenTree l) k = Some m ->
    Replaced b (flattenTree l) (flattenTree (setExpandedAt b k l)) k m.
Proof.
  induction 1 as [|n l Hn _ IH]; intros k m Hk.
  - destruct k; discriminate.
  - rewrite flattenTree_cons in *. simpl setExpandedAt.
    destruct (Nat.ltb_spec k (List.length (flattenNode n))) as [Hlt|Hge].
    + rewrite nth_error_app1 in Hk by assumption.
      destruct (Hn k m Hk) as [Heq Hle].
      rewrite flattenTree_cons. unfold Replaced.
      rewrite !map_app, Heq, length_app. split; [|lia].
      rewrite firstn_app, skipn_app, !length_map.
      replace (k - List.length (flattenNode n)) with 0 by lia.
      replace (k + List.length (flattenNode m) - List.length (flattenNode n)) with 0 by lia.
      rewrite firstn_O, skipn_O, app_nil_r. now rewrite <- !app_assoc.
    + rewrite nth_error_app2 in Hk by assumption.
      destruct (IH _ m Hk) as [Heq Hle].
      rewrite flattenTree_cons. unfold Replaced.
      rewrite !map_app, Heq, length_app. split; [|lia].
      rewrite firstn_app, skipn_app, !length_map.
      rewrite (@firstn_all2 _ k (map shallow (flattenNode n)))
        by (rewrite length_map; lia).
      rewrite (@skipn_all2 _ (k + List.length (flattenNode m))
                 (map shallow (flattenNode n)))
        by (rewrite length_map; lia).
      replace (k + List.length (flattenNode m) - List.length (flattenNode n))
        with (k - List.length (flattenNode n) + List.length (flattenNode m)) by lia.
      rewrite app_nil_l. now rewrite <- !app_assoc.
Qed.

Lemma Replaced_node (b : bool) (n : FileNode) (k : nat) (m : FileNode) :
  nth_error (flattenNode n) k = Some m ->
  Replaced b (flattenNode n) (flattenNode (setExpandedInNode b k n)) k m.
Proof.
  revert k m. induction n as [n IH] using FileNode_nested_ind. intros k m Hk.
  destruct k as [|k].
  - rewrite flattenNode_unfold in Hk. simpl in Hk. injection Hk as <-.
    rewrite setExpandedInNode_0. unfold Replaced. split; [|simpl; lia].
    rewrite firstn_O, skipn_all2 by (rewrite length_map; simpl; lia).
    now rewrite app_nil_r.
  - rewrite flattenNode_unfold in Hk. simpl in Hk.
    rewrite setExpandedInNode_S. unfold shownChildren in Hk.
    destruct (isDirectory n && expanded n) eqn:Hopen;
      [|destruct k; discriminate].
    destruct (children n) as [cs|] eqn:Hcs; [|destruct k; discriminate].
    destruct (Replaced_list b cs (IH cs eq_refl) k m Hk) as [Heq Hle].
    assert (Hflat : forall cs', flattenNode (withChildren (Some cs') n)
                      = withChildren (Some cs') n :: flattenTree cs').
    { intros cs'. rewrite flattenNode_unfold. unfold shownChildren. simpl.
      now rewrite Hopen. }
    assert (Hn : flattenNode n = n :: flattenTree cs).
    { rewrite flattenNode_unfold. unfold shownChildren. now rewrite Hopen, Hcs. }
    rewrite Hflat, Hn. unfold Replaced. simpl. split; [|lia].
    now rewrite Heq.
Qed.

Lemma Replaced_tree (b : bool) (l : list FileNode) (k : nat) (m : FileNode) :
  nth_error (flattenTree l) k = Some m ->
  Replaced b (flattenTree l) (flattenTree (setExpandedAt b k l)) k m.
Proof.
  apply Replaced_list. apply Forall_forall. intros n _ k' m'.
  apply Replaced_node.
Qed.

Lemma flattenNode_length (n : FileNode) : 1 <= List.length (flattenNode n).
Proof. rewrite flattenNode_unfold. simpl. lia. Qed.

Lemma Replaced_length (b : bool) (before after : list FileNode) (k : nat) (m : FileNode) :
  Replaced b before after k m -> k < List.length after.
Proof.
  intros [Heq Hle]. apply (f_equal (@List.length FileNode)) in Heq.
  rewrite !length_app, !length_map, length_firstn, length_map in Heq.
  pose proof (flattenNode_length m). pose proof (flattenNode_length (withExpanded b m)).
  lia.
Qed.

Lemma Replaced_nth (b : bool) (before after : list FileNode) (k : nat) (m : FileNode) :
  Replaced b before after k m ->
  exists m', nth_error after k = Some m' /\ shallow m' = shallow (withExpanded b m).
Proof.
  intros [Heq Hle].
  assert (H : nth_error (map shallow after) k = Some (shallow (withExpanded b m))).
  { rewrite Heq, nth_error_app2 by (rewrite length_firstn, length_map; lia).
    rewrite length_firstn, length_map.
    replace (k - Nat.min k (List.length before)) with 0 by lia.
    rewrite flattenNode_unfold. reflexivity. }
  rewrite nth_error_map in H.
  destruct (nth_error after k) as [m'|]; [|discriminate].
  exists m'. split; [reflexivity|]. simpl in H. congruence.
Qed.

Lemma at_cursor_nth {A : Type} (arr : list A) (cursor : Z) :
  (0 <= cursor)%Z -> at_cursor arr cursor = nth_error arr (Z.to_nat cursor).
Proof.
  intros H. unfold at_cursor. destruct (Z.ltb_spec cursor 0); [lia | reflexivity].
Qed.

(** X8.  Expanding the collapsed folder under the cursor puts what it
    shows right below it in the flat list and leaves the entries before
    and after as they were; the cursor stays on the folder and the
    selection is untouched. *)
Theorem expand_shows_children (st : BrowserState) (node : FileNode) :
  st_flatList st = flattenTree (st_tree st) ->
  at_cursor (st_flatList st) (st_cursor st) = Some node ->
  isDirectory node = true ->
  expanded node = false ->
  exists st',
    handleKeypress st KeyRight = Continue st' /\
    st_cursor st' = st_cursor st /\
    st_selected st' = st_selected st /\
    st_flatList st' = flattenTree (st_tree st') /\
    map shallow (st_flatList st') =
      (firstn (Z.to_nat (st_cursor st)) (map shallow (st_flatList st)) ++
       shallow (withExpanded true node) :: map shallow (shownChildren node) ++
       skipn (S (Z.to_nat (st_cursor st))) (map shallow (st_flatList st)))%list.
Proof.
  intros Hflat Hcur Hdir Hexp.
  destruct (at_cursor_Some _ _ _ Hcur) as [Hin Hnth].
  simpl. rewrite Hcur, Hdir, Hexp. simpl.
  eexists. split; [reflexivity|]. simpl. repeat (split; [reflexivity|]).
  rewrite Hflat in Hnth.
  destruct (Replaced_tree true _ _ _ Hnth) as [Heq _].
  rewrite Heq, Hflat.
  rewrite (flattenNode_unfold node), Hexp, andb_false_r.
  rewrite (flattenNode_unfold (withExpanded true node)). simpl.
  rewrite Hdir. simpl. now rewrite Nat.add_1_r.
Qed.

Lemma expand_shows_children_witness :
  exists st',
    handleKeypress (initialState Example.tree []) KeyRight = Continue st' /\
    st_cursor st' = 0%Z /\
    st_selected st' = [] /\
    st_flatList st' = flattenTree (st_tree st') /\
    map path (st_flatList st') =
      [ "/home/u/.aws"; "/home/u/.aws/credentials"; "/home/u/proj"; "/home/u/notes.txt" ].
Proof.
  destruct (expand_shows_children (initialState Example.tree [])
              (mkFileNode ".aws" "/home/u/.aws" ".aws" true
                 (Some [mkFileNode "credentials" "/home/u/.aws/credentials"
                          ".aws/credentials" false None false false 1 true])
                 false false 0 true)
              eq_refl eq_refl eq_refl eq_refl)
    as [st' [H1 [H2 [H3 [H4 H5]]]]].
  exists st'. repeat (split; [assumption|]).
  apply (f_equal (map path)) in H5. rewrite map_map in H5.
  rewrite (map_ext _ path (fun n => eq_refl : path (shallow n) = path n)) in H5.
  exact H5.
Defined.

(** X9.  Collapsing the expanded folder under the cursor takes exactly the
    entries it showed out of the flat list; the cursor stays on the folder
    and the selection is untouched. *)
Theorem collapse_hides_children (st : BrowserState) (node : FileNode) :
  st_flatList st = flattenTree (st_tree st) ->
  at_cursor (st_flatList st) (st_cursor st) = Some node ->
  isDirectory node = true ->
  expanded node = true ->
  exists st',
    handleKeypress st KeyLeft = Continue st' /\
    st_cursor st' = st_cursor st /\
    st_selected st' = st_selected st /\
    st_flatList st' = flattenTree (st_tree st') /\
    map shallow (st_flatList st') =
      (firstn (Z.to_nat (st_cursor st)) (map shallow (st_flatList st)) ++
       shallow (withExpanded false node) ::
       skipn (S (Z.to_nat (st_cursor st)) + List.length (shownChildren node))
         (map shallow (st_flatList st)))%list.
Proof.
  intros Hflat Hcur Hdir Hexp.
  destruct (at_cursor_Some _ _ _ Hcur) as [Hin Hnth].
  simpl. rewrite Hcur, Hdir, Hexp. simpl.
  rewrite Hflat in Hnth.
  pose proof (Replaced_tree false _ _ _ Hnth) as Hrep.
  pose proof (Replaced_length _ _ _ _ _ Hrep) as Hlen.
  destruct Hrep as [Heq _].
  eexists. split; [reflexivity|]. simpl.
  split; [unfold lengthZ; lia|]. repeat (split; [reflexivity|]).
  rewrite Heq, Hflat.
  rewrite (flattenNode_unfold node), Hexp, Hdir.
  rewrite (flattenNode_unfold (withExpanded false node)). simpl.
  rewrite andb_false_r. simpl. now rewrite Nat.add_succ_r.
Qed.

Lemma collapse_hides_children_witness :
  exists st',
    handleKeypress Example.projExpanded KeyLeft = Continue st' /\
    st_cursor st' = 1%Z /\
    st_selected st' = [] /\
    st_flatList st' = flattenTree (st_tree st') /\
    map path (st_flatList st') =
      [ "/home/u/.aws"; "/home/u/proj"; "/home/u/notes.txt" ].
Proof.
  destruct (collapse_hides_children Example.projExpanded Example.projOpen
              eq_refl eq_refl eq_refl eq_refl)
    as [st' [H1 [H2 [H3 [H4 H5]]]]].
  exists st'. repeat (split; [assumption|]).
  apply (f_equal (map path)) in H5. rewrite map_map in H5.
  rewrite (map_ext _ path (fun n => eq_refl : path (shallow n) = path n)) in H5.
  exact H5.
Defined.

Lemma withExpanded_undo (n : FileNode) :
  expanded n = false -> withExpanded false (withExpanded true n) = n.
Proof. destruct n; simpl; intros ->; reflexivity. Qed.

Lemma withChildren_undo (cs cs' : list FileNode) (n : FileNode) :
  children n = Some cs ->
  withChildren (Some cs) (withChildren (Some cs') n) = n.
Proof. destruct n; simpl; intros ->; reflexivity. Qed.

Lemma collapse_expand_list (l : list FileNode) :
  Forall (fun n => forall k m, nth_error (flattenNode n) k = Some m ->
                   expanded m = false ->
                   setExpandedInNode false k (setExpandedInNode true k n) = n) l ->
  forall k m, nth_error (flattenTree l) k = Some m -> expanded m = false ->
    setExpandedAt false k (setExpandedAt true k l) = l.
Proof.
  induction 1 as [|n l Hn _ IH]; intros k m Hk Hexp.
  - destruct k; discriminate.
  - rewrite flattenTree_cons in Hk. simpl setExpandedAt at 2.
    destruct (Nat.ltb_spec k (List.length (flattenNode n))) as [Hlt|Hge].
    + rewrite nth_error_app1 in Hk by assumption.
      pose proof (Replaced_length _ _ _ _ _ (Replaced_node true n k m Hk)) as Hlen.
      simpl. apply Nat.ltb_lt in Hlen. rewrite Hlen.
      now rewrite (Hn k m Hk Hexp).
    + rewrite nth_error_app2 in Hk by assumption.
      simpl. apply Nat.ltb_ge in Hge. rewrite Hge.
      now rewrite (IH _ m Hk Hexp).
Qed.

Lemma collapse_expand_node (n : FileNode) (k : nat) (m : FileNode) :
  nth_error (flattenNode n) k = Some m -> expanded m = false ->
  setExpandedInNode false k (setExpandedInNode true k n) = n.
Proof.
  revert k m. induction n as [n IH] using FileNode_nested_ind. intros k m Hk Hexp.
  destruct k as [|k].
  - rewrite flattenNode_unfold in Hk. simpl in Hk. injection Hk as <-.
    rewrite !setExpandedInNode_0. now apply withExpanded_undo.
  - rewrite flattenNode_unfold in Hk. simpl in Hk. unfold shownChildren in Hk.
    destruct (isDirectory n && expanded n); [|destruct k; discriminate].
    destruct (children n) as [cs|] eqn:Hcs; [|destruct k; discriminate].
    rewrite (setExpandedInNode_S true), Hcs.
    rewrite (setExpandedInNode_S false). simpl children. cbv iota beta.
    rewrite (collapse_expand_list cs (IH cs eq_refl) k m Hk Hexp).
    now apply withChildren_undo.
Qed.

Lemma collapse_expand_tree (l : list FileNode) (k : nat) (m : FileNode) :
  nth_error (flattenTree l) k = Some m -> expanded m = false ->
  setExpandedAt false k (setExpandedAt true k l) = l.
Proof.
  apply collapse_expand_list. apply Forall_forall. intros n _ k' m'.
  apply collapse_expand_node.
Qed.

Lemma shallow_fields (a b : FileNode) :
  shallow a = shallow b ->
  isDirectory a = isDirectory b /\ expanded a = expanded b /\ path a = path b.
Proof.
  destruct a, b. unfold shallow, withChildren. simpl. intros H.
  injection H. intros. subst. auto.
Qed.

(** X10.  Expanding the collapsed folder under the cursor and collapsing
    it again brings the browser back to the state it was in: the same
    tree, flat list, cursor and selection. *)
Theorem expand_then_collapse_restores (st : BrowserState) (node : FileNode) :
  st_flatList st = flattenTree (st_tree st) ->
  at_cursor (st_flatList st) (st_cursor st) = Some node ->
  isDirectory node = true ->
  expanded node = false ->
  runKeys st [KeyRight; KeyLeft] = Continue st.
Proof.
  intros Hflat Hcur Hdir Hexp.
  destruct (at_cursor_Some _ _ _ Hcur) as [Hin Hnth].
  rewrite Hflat in Hnth.
  pose proof (Replaced_tree true _ _ _ Hnth) as Hrep.
  pose proof (Replaced_length _ _ _ _ _ Hrep) as Hlen.
  destruct (Replaced_nth _ _ _ _ _ Hrep) as [m' [Hm' Hsh]].
  apply shallow_fields in Hsh. destruct Hsh as [Hd' [He' _]]. simpl in Hd', He'.
  change (runKeys st [KeyRight; KeyLeft]) with
    (match handleKeypress st KeyRight with
     | Continue st' => runKeys st' [KeyLeft]
     | other => other
     end).
  simpl handleKeypress. rewrite Hcur, Hdir, Hexp. simpl andb. cbv iota.
  simpl runKeys. rewrite at_cursor_nth by lia. rewrite Hm', Hd', He', Hdir.
  simpl andb. cbv iota.
  rewrite (collapse_expand_tree _ _ _ Hnth Hexp).
  rewrite <- Hflat. f_equal. destruct st as [t f c s]. simpl in *.
  f_equal. unfold lengthZ in *. lia.
Qed.

Lemma expand_then_collapse_restores_witness :
  runKeys (initialState Example.tree ["/home/u/notes.txt"]) [KeyRight; KeyLeft]
  = Continue (initialState Example.tree ["/home/u/notes.txt"]).
Proof.
  exact (expand_then_collapse_restores (initialState Example.tree ["/home/u/notes.txt"])
           (mkFileNode ".aws" "/home/u/.aws" ".aws" true
              (Some [mkFileNode "credentials" "/home/u/.aws/credentials"
                       ".aws/credentials" false None false false 1 true])
              false false 0 true)
           eq_refl eq_refl eq_refl eq_refl).
Defined.

Lemma setExpandedAt_not_nil (b : bool) (k : nat) (l : list FileNode) :
  l <> [] -> setExpandedAt b k l <> [].
Proof.
  destruct l as [|n l]; [congruence|]. intros _. simpl.
  destruct (k <? List.length (flattenNode n))%nat; discriminate.
Qed.

(** One key pressed while browsing: the handler does not throw, and when
    it goes on, the browser is still browsing. *)
Lemma Browsing_step (st : BrowserState) (key : Key) :
  Browsing st ->
  handleKeypress st key <> Throw /\
  forall st', handleKeypress st key = Continue st' -> Browsing st'.
Proof.
  intros [Hflat Hin].
  destruct (at_cursor (st_flatList st) (st_cursor st)) as [node|] eqn:Hcur;
    [|apply at_cursor_None in Hcur; tauto].
  split.
  - destruct key; simpl; rewrite ?Hcur; try discriminate;
      match goal with
      | |- context [if ?c then _ else _] => destruct c; discriminate
      end.
  - intros st'.
    destruct (at_cursor_Some _ _ _ Hcur) as [_ Hnth]. rewrite Hflat in Hnth.
    unfold Browsing, lengthZ in *.
    destruct key; simpl; unfold lengthZ; rewrite ?Hcur;
      try (intros E; injection E as <-; simpl; split; [assumption | lia]).
    + destruct (isDirectory node && negb (expanded node));
        intros E; injection E as <-; simpl; [|split; [assumption | lia]].
      split; [reflexivity|].
      pose proof (Replaced_length _ _ _ _ _ (Replaced_tree true _ _ _ Hnth)). lia.
    + destruct (isDirectory node && expanded node);
        intros E; injection E as <-; simpl; [|split; [assumption | lia]].
      split; [reflexivity|].
      pose proof (Replaced_length _ _ _ _ _ (Replaced_tree false _ _ _ Hnth)). lia.
    + discriminate.
    + discriminate.
Qed.

Lemma Browsing_initial (tree : list FileNode) (pre : JsSet.t) :
  tree <> [] -> Browsing (initialState tree pre).
Proof.
  intros Hne. split; [reflexivity|]. simpl. unfold lengthZ.
  destruct tree as [|n tree]; [congruence|].
  rewrite flattenTree_cons, length_app. pose proof (flattenNode_length n). lia.
Qed.

(** X11.  On a tree that is not empty the browser never throws, whatever
    keys are pressed: the cursor is always on an entry of the flat list. *)
Theorem browser_never_throws (tree : list FileNode) (pre : JsSet.t) (keys : list Key) :
  tree <> [] ->
  runKeys (initialState tree pre) keys <> Throw /\
  forall st, runKeys (initialState tree pre) keys = Continue st ->
    (0 <= st_cursor st < lengthZ (st_flatList st))%Z.
Proof.
  intros Hne. pose proof (Browsing_initial tree pre Hne) as Hb.
  revert Hb. generalize (initialState tree pre) as st0.
  induction keys as [|key keys IH]; intros st0 Hb; simpl.
  - split; [discriminate|]. intros st E. injection E as <-. exact (proj2 Hb).
  - destruct (Browsing_step st0 key Hb) as [Hthrow Hnext].
    destruct (handleKeypress st0 key) as [st1|r|]; [|split; discriminate|congruence].
    apply IH. now apply Hnext.
Qed.

Lemma browser_never_throws_witness :
  runKeys (initialState Example.tree []) [KeyUp; KeyDown; KeyDown; KeyDown; KeyDown; KeySpace]
  <> Throw.
Proof.
  apply (browser_never_throws Example.tree []
           [KeyUp; KeyDown; KeyDown; KeyDown; KeyDown; KeySpace]).
  discriminate.
Defined.

(** ** Depths, and the paths Confirm reports *)

Lemma buildLevels_depths
  (readdir : string -> option (list Dirent)) (localeCompare : string -> string -> Z)
  (pathJoin pathRelative : string -> string -> string)
  (levels : nat) (dir rootPath : string) (depth : nat) :
  DepthsFrom depth
    (buildLevels readdir localeCompare pathJoin pathRelative levels dir rootPath depth).
Proof.
  revert dir depth. induction levels as [|levels IH]; intros dir depth; simpl.
  - constructor; intros n; intros; contradiction.
  - destruct (readdir dir) as [entries|];
      [|constructor; intros n; intros; contradiction].
    constructor.
    + intros n Hn. apply in_flat_map in Hn. destruct Hn as [e [_ Hn]].
      destruct (skipped depth e); [destruct Hn|]. destruct Hn as [<-|[]]. reflexivity.
    + intros n cs Hn Hcs. apply in_flat_map in Hn. destruct Hn as [e [_ Hn]].
      destruct (skipped depth e); [destruct Hn|]. destruct Hn as [<-|[]].
      simpl in Hcs. destruct (entryIsDirectory e); [|discriminate].
      injection Hcs as <-. apply IH.
Qed.

Lemma DepthsFrom_flatten (d : nat) (l : list FileNode) :
  DepthsFrom d l -> Forall (fun n => d <= depth n) (flattenTree l).
Proof.
  induction 1 as [d nodes Hd Hcs IH].
  apply Forall_forall. intros x Hx. apply in_flat_map in Hx.
  destruct Hx as [n [Hn Hx]]. rewrite flattenNode_unfold in Hx.
  destruct Hx as [<-|Hx]; [rewrite (Hd n Hn); lia|].
  destruct (isDirectory n && expanded n); [|destruct Hx].
  unfold shownChildren in Hx. destruct (children n) as [cs|] eqn:E; [|destruct Hx].
  pose proof (IH n cs Hn E) as H. rewrite Forall_forall in H.
  specialize (H x Hx). lia.
Qed.

Lemma DepthsFrom_tail (d : nat) (n : FileNode) (l : list FileNode) :
  DepthsFrom d (n :: l) -> DepthsFrom d l.
Proof.
  intros H. inversion H as [d' nodes Hd Hcs]; subst. constructor.
  - intros x Hx. apply Hd. now right.
  - intros x cs Hx. apply Hcs. now right.
Qed.

Lemma topLevelPaths_flatten (l : list FileNode) :
  DepthsFrom 0 l -> topLevelPaths (flattenTree l) = map path l.
Proof.
  induction l as [|n l IH]; intros H; [reflexivity|].
  rewrite flattenTree_cons. unfold topLevelPaths in *.
  rewrite filter_app, map_app, (IH (DepthsFrom_tail _ _ _ H)).
  inversion H as [d' nodes Hd Hcs]; subst.
  rewrite flattenNode_unfold. simpl.
  rewrite (Hd n (or_introl eq_refl)). simpl. f_equal.
  destruct (isDirectory n && expanded n); [|reflexivity].
  unfold shownChildren. destruct (children n) as [cs|] eqn:E; [|reflexivity].
  pose proof (DepthsFrom_flatten _ _ (Hcs n cs (or_introl eq_refl) E)) as Hdeep.
  induction Hdeep as [|x xs Hx _ IHx]; [reflexivity|]. simpl.
  destruct (Nat.eqb_spec (depth x) 0); [lia | exact IHx].
Qed.

Lemma depth_setExpandedInNode (b : bool) (k : nat) (n : FileNode) :
  depth (setExpandedInNode b k n) = depth n /\
  path (setExpandedInNode b k n) = path n.
Proof.
  destruct k; [rewrite setExpandedInNode_0 | rewrite setExpandedInNode_S];
    [|destruct (children n)]; split; reflexivity.
Qed.

Lemma In_setExpandedAt (b : bool) (k : nat) (l : list FileNode) (x : FileNode) :
  In x (setExpandedAt b k l) ->
  In x l \/ exists n k', In n l /\ x = setExpandedInNode b k' n.
Proof.
  revert k. induction l as [|n l IH]; intros k; simpl; [tauto|].
  destruct (k <? List.length (flattenNode n))%nat.
  - intros [<-|H]; [right; exists n, k; auto | left; auto].
  - intros [<-|H]; [left; auto|].
    destruct (IH _ H) as [H'|[n' [k' [H1 H2]]]]; [left; auto|].
    right. exists n', k'. auto.
Qed.

Lemma setExpandedAt_depths (d : nat) (l : list FileNode) :
  DepthsFrom d l -> forall b k, DepthsFrom d (setExpandedAt b k l).
Proof.
  induction 1 as [d nodes Hd Hcs IH]. intros b k. constructor.
  - intros x Hx. apply In_setExpandedAt in Hx.
    destruct Hx as [Hx|[n [k' [Hn ->]]]]; [now apply Hd|].
    rewrite (proj1 (depth_setExpandedInNode b k' n)). now apply Hd.
  - intros x cs Hx Hc. apply In_setExpandedAt in Hx.
    destruct Hx as [Hx|[n [k' [Hn ->]]]]; [now apply (Hcs x)|].
    destruct k' as [|k'].
    + rewrite setExpandedInNode_0 in Hc. now apply (Hcs n).
    + rewrite setExpandedInNode_S in Hc.
      destruct (children n) as [cs0|] eqn:E.
      * simpl in Hc. injection Hc as <-. now apply (IH n cs0).
      * now apply (Hcs n).
Qed.

Lemma map_path_setExpandedAt (b : bool) (k : nat) (l : list FileNode) :
  map path (setExpandedAt b k l) = map path l.
Proof.
  revert k. induction l as [|n l IH]; intros k; simpl; [reflexivity|].
  destruct (k <? List.length (flattenNode n))%nat; simpl.
  - now rewrite (proj2 (depth_setExpandedInNode b k n)).
  - now rewrite IH.
Qed.

Lemma Keeps_step (tree0 : list FileNode) (st st' : BrowserState) (key : Key) :
  Keeps tree0 st -> handleKeypress st key = Continue st' -> Keeps tree0 st'.
Proof.
  intros [Hflat [Hd Hp]]. unfold Keeps.
  destruct key; simpl;
    try (destruct (at_cursor (st_flatList st) (st_cursor st)) as [node|]; [|discriminate]);
    try match goal with
        | |- context [if ?c then _ else _] => destruct c
        end;
    intros E; inversion E; subst; simpl; auto;
    (split; [reflexivity|]); (split; [now apply setExpandedAt_depths|]);
    now rewrite map_path_setExpandedAt.
Qed.

(** X12.  Whatever was expanded, collapsed or selected on the way, the
    browser resolves either with the empty result of a cancel or with
    [allPaths] being the paths of all top-level entries of the tree the
    builder made, in their order. *)
Theorem confirm_reports_top_level
  (readdir : string -> option (list Dirent)) (localeCompare : string -> string -> Z)
  (pathJoin pathRelative : string -> string -> string)
  (home : string) (maxDepth : nat) (pre : JsSet.t) (keys : list Key) (r : BrowseResult) :
  let tree := buildFileTree readdir localeCompare pathJoin pathRelative home home 0 maxDepth in
  runKeys (initialState tree pre) keys = Resolve r ->
  r = mkBrowseResult [] [] \/ allPaths r = map path tree.
Proof.
  intros tree.
  assert (Hk : Keeps tree (initialState tree pre)).
  { split; [reflexivity|]. split; [apply buildLevels_depths | reflexivity]. }
  revert Hk. generalize (initialState tree pre) as st.
  induction keys as [|key keys IH]; intros st Hk; simpl; [discriminate|].
  destruct (handleKeypress st key) as [st1|r1|] eqn:E; [| |discriminate].
  - apply IH. exact (Keeps_step _ _ _ _ Hk E).
  - intros H. injection H as <-. destruct Hk as [Hflat [Hd Hp]].
    destruct key; simpl in E;
      try (destruct (at_cursor (st_flatList st) (st_cursor st)) as [node|]; [|discriminate]);
      try match type of E with
          | context [if ?c then _ else _] => destruct c
          end;
      try discriminate; injection E as <-; [right | left; reflexivity].
    simpl. now rewrite Hflat, topLevelPaths_flatten.
Qed.

Lemma confirm_reports_top_level_witness :
  mkBrowseResult ["/home/u/proj"]
    ["/home/u/.aws"; "/home/u/proj"; "/home/u/notes.txt"] = mkBrowseResult [] [] \/
  allPaths (mkBrowseResult ["/home/u/proj"]
              ["/home/u/.aws"; "/home/u/proj"; "/home/u/notes.txt"])
  = map path Example.tree.
Proof.
  apply (confirm_reports_top_level Example.readdir Example.codeUnitCompare
           Example.joinBelow Example.relativeBelow "/home/u" 3 []
           [KeyDown; KeyRight; KeySpace; KeyDown; KeySpace; KeyReturn]).
  reflexivity.
Defined.

(** ** The tree the builder makes *)

Lemma skipped_eta (depth : nat) (e : Dirent) :
  skipped depth (mkDirent (entryName e) (entryIsDirectory e)) = skipped depth e.
Proof. destruct e; reflexivity. Qed.

Lemma buildLevels_Built
  (readdir : string -> option (list Dirent)) (localeCompare : string -> string -> Z)
  (pathJoin pathRelative : string -> string -> string)
  (levels : nat) (dir rootPath : string) (depth : nat) :
  Forall (Built readdir localeCompare pathJoin pathRelative rootPath (depth + levels))
    (knownNodes
       (buildLevels readdir localeCompare pathJoin pathRelative levels dir rootPath depth)).
Proof.
  revert dir depth. induction levels as [|levels IH]; intros dir depth; simpl.
  - constructor.
  - destruct (readdir dir) as [entries|]; [|constructor].
    apply Forall_forall. intros x Hx. unfold knownNodes in Hx.
    apply in_flat_map in Hx. destruct Hx as [n [Hn Hx]].
    apply in_flat_map in Hn. destruct Hn as [e [_ Hn]].
    destruct (skipped depth e) eqn:Hskip; [destruct Hn|]. destruct Hn as [<-|[]].
    simpl in Hx. destruct Hx as [<-|Hx].
    + unfold Built. simpl. rewrite skipped_eta.
      repeat (split; [first [reflexivity | assumption | lia]|]).
      unfold buildFileTree.
      replace (depth + S levels - S depth) with levels by lia. reflexivity.
    + destruct (entryIsDirectory e); [|destruct Hx].
      pose proof (IH (pathJoin dir (entryName e)) (S depth)) as H.
      rewrite Forall_forall in H.
      replace (depth + S levels) with (S depth + levels) by lia.
      now apply H.
Qed.

(** X13.  Every node of the tree the builder makes, at every level, is
    collapsed and unselected, carries the classifier's verdict on its name,
    lies above the depth bound, is not one of the entries the walk skips,
    and has children exactly when it is a directory: the tree built from
    its own path one level deeper. *)
Theorem built_tree_nodes
  (readdir : string -> option (list Dirent)) (localeCompare : string -> string -> Z)
  (pathJoin pathRelative : string -> string -> string)
  (dir rootPath : string) (from maxDepth : nat) :
  Forall (Built readdir localeCompare pathJoin pathRelative rootPath maxDepth)
    (knownNodes
       (buildFileTree readdir localeCompare pathJoin pathRelative dir rootPath from maxDepth)).
Proof.
  unfold buildFileTree. destruct (Nat.le_gt_cases maxDepth from) as [H|H].
  - replace (maxDepth - from) with 0 by lia. constructor.
  - replace maxDepth with (from + (maxDepth - from)) at 1 by lia.
    apply buildLevels_Built.
Qed.

(** X14.  A directory at the depth bound and a directory that cannot be
    read are listed with no children; and the browser opens on the top
    level alone, every folder collapsed. *)
Theorem built_tree_edges
  (readdir : string -> option (list Dirent)) (localeCompare : string -> string -> Z)
  (pathJoin pathRelative : string -> string -> string)
  (dir rootPath : string) (from maxDepth : nat) :
  let tree :=
    buildFileTree readdir localeCompare pathJoin pathRelative dir rootPath from maxDepth in
  Forall
    (fun n =>
       isDirectory n = true ->
       S (depth n) = maxDepth \/ readdir (path n) = None ->
       children n = Some [])
    (knownNodes tree) /\
  flattenTree tree = tree.
Proof.
  intros tree.
  assert (Hb : Forall (Built readdir localeCompare pathJoin pathRelative rootPath maxDepth)
                 (knownNodes tree)).
  { unfold tree, buildFileTree. destruct (Nat.le_gt_cases maxDepth from) as [H|H].
    - replace (maxDepth - from) with 0 by lia. constructor.
    - replace maxDepth with (from + (maxDepth - from)) at 1 by lia.
      apply buildLevels_Built. }
  split.
  - eapply Forall_impl; [|exact Hb].
    intros n [_ [_ [_ [Hlt [_ Hc]]]]] Hdir Hedge. rewrite Hc, Hdir.
    rewrite buildFileTree_unfold.
    destruct Hedge as [Hedge|Hedge].
    + rewrite <- Hedge, Nat.leb_refl. reflexivity.
    + rewrite Hedge. now destruct (maxDepth <=? S (depth n))%nat.
  - assert (Htop : Forall (fun n => expanded n = false) tree).
    { apply Forall_forall. intros n Hn. rewrite Forall_forall in Hb.
      apply (Hb n). unfold knownNodes. apply in_flat_map. exists n.
      split; [assumption|]. destruct n; now left. }
    clear Hb. induction Htop as [|n l Hn _ IH]; [reflexivity|].
    rewrite flattenTree_cons, IH, flattenNode_unfold, Hn, andb_false_r. reflexivity.
Qed.

(** ** The review phase *)

Lemma collectNode_unfold (n : FileNode) :
  collectNode n =
  ((if isSensitive n then [itemOf n] else []) ++
   match children n with
   | Some cs => flat_map collectNode cs
   | None => []
   end)%list.
Proof. destruct n; reflexivity. Qed.

Lemma knownNode_unfold (n : FileNode) :
  knownNode n =
  n :: match children n with
       | Some cs => flat_map knownNode cs
       | None => []
       end.
Proof. destruct n; reflexivity. Qed.

Lemma collect_list (l : list FileNode) :
  Forall (fun n => collectNode n = map itemOf (filter isSensitive (knownNode n))) l ->
  flat_map collectNode l = map itemOf (filter isSensitive (flat_map knownNode l)).
Proof.
  induction 1 as [|n l Hn _ IH]; [reflexivity|].
  simpl flat_map. now rewrite filter_app, map_app, Hn, IH.
Qed.

Lemma collectNode_known (n : FileNode) :
  collectNode n = map itemOf (filter isSensitive (knownNode n)).
Proof.
  induction n as [n IH] using FileNode_nested_ind.
  rewrite collectNode_unfold, knownNode_unfold. simpl filter.
  destruct (children n) as [cs|].
  - rewrite (collect_list cs (IH cs eq_refl)). now destruct (isSensitive n).
  - now destruct (isSensitive n).
Qed.

Lemma In_ofList (l : list string) (x : string) : In x (JsSet.ofList l) <-> In x l.
Proof.
  unfold JsSet.ofList.
  assert (H : forall acc, In x (fold_left (fun s y => JsSet.add y s) l acc)
                          <-> In x acc \/ In x l).
  { induction l as [|y l IH]; intros acc; simpl; [tauto|].
    rewrite IH, In_add. intuition. }
  rewrite H. simpl. tauto.
Qed.

(** X15.  The review phase lists the sensitive nodes of the whole tree,
    inside collapsed folders too, in the order of the tree, each selected
    and with the reason of its name.  Confirming the review as it comes up
    pre-selects exactly the paths of these nodes. *)
Theorem review_lists_sensitive_nodes (tree : list FileNode) (cursor : Z) :
  collectSensitiveFiles tree = map itemOf (filter isSensitive (knownNodes tree)) /\
  exists paths,
    overviewKeypress (mkOverviewState (collectSensitiveFiles tree) cursor) KeyReturn
    = Resolve (Some paths) /\
    forall p, In p paths <->
              exists n, In n (knownNodes tree) /\ isSensitive n = true /\ path n = p.
Proof.
  assert (Hc : collectSensitiveFiles tree
               = map itemOf (filter isSensitive (knownNodes tree))).
  { apply collect_list. apply Forall_forall. intros n _. apply collectNode_known. }
  split; [exact Hc|].
  eexists. split; [reflexivity|]. simpl. intros p.
  rewrite In_ofList, in_map_iff, Hc. split.
  - intros [i [<- Hi]]. apply filter_In in Hi. destruct Hi as [Hi _].
    apply in_map_iff in Hi. destruct Hi as [n [<- Hn]].
    apply filter_In in Hn. exists n. simpl. tauto.
  - intros [n [Hn [Hs <-]]]. exists (itemOf n). split; [reflexivity|].
    apply filter_In. split; [|reflexivity].
    apply in_map. apply filter_In. tauto.
Qed.

Lemma setItemSelected_same (i : SensitiveFileItem) :
  setItemSelected (itemSelected i) i = i.
Proof. destruct i; reflexivity. Qed.

(** X16.  In the review phase, `deselect all' followed by Confirm
    pre-selects nothing, and `select all' followed by Confirm pre-selects
    the path of every item, whatever was toggled before. *)
Theorem review_select_all_or_none (st : OverviewState) :
  (exists st1,
     overviewKeypress st KeySelectNone = Continue st1 /\
     overviewKeypress st1 KeyReturn = Resolve (Some [])) /\
  (exists st2,
     overviewKeypress st KeySelectAll = Continue st2 /\
     overviewKeypress st2 KeyReturn
     = Resolve (Some (JsSet.ofList (map itemPath (ov_items st))))).
Proof.
  split; eexists; (split; [reflexivity|]); simpl; do 3 f_equal.
  - induction (ov_items st) as [|i l IH]; [reflexivity | exact IH].
  - induction (ov_items st) as [|i l IH]; [reflexivity|]. simpl. now rewrite IH.
Qed.

Lemma updateAt_twice {A : Type} (f : A -> A) (k : nat) (l : list A) :
  (forall x, f (f x) = x) -> updateAt f k (updateAt f k l) = l.
Proof.
  intros Hf. revert k. induction l as [|x l IH]; intros [|k]; simpl;
    try reflexivity; [now rewrite Hf | now rewrite IH].
Qed.

Lemma at_cursor_updateAt {A : Type} (f : A -> A) (k : nat) (l : list A) (cursor : Z) :
  at_cursor (updateAt f k l) cursor = None <-> at_cursor l cursor = None.
Proof.
  rewrite !at_cursor_None. unfold lengthZ.
  assert (H : List.length (updateAt f k l) = List.length l).
  { revert k. induction l as [|x l IH]; intros [|k]; simpl; auto. }
  now rewrite H.
Qed.

(** X17.  In the review phase, two presses of [space] on an item leave
    every item as it was. *)
Theorem review_toggle_twice (st st1 : OverviewState) :
  overviewKeypress st KeySpace = Continue st1 ->
  overviewKeypress st1 KeySpace = Continue st.
Proof.
  simpl. destruct (at_cursor (ov_items st) (ov_cursor st)) as [i|] eqn:E;
    [|discriminate].
  intros H. injection H as <-. simpl.
  destruct (at_cursor (updateAt _ _ (ov_items st)) (ov_cursor st)) eqn:E';
    [|apply at_cursor_updateAt in E'; congruence].
  rewrite updateAt_twice; [now destruct st|].
  intros [inm ipa irp isl irs]. unfold setItemSelected. simpl.
  now rewrite negb_involutive.
Qed.

Lemma review_toggle_twice_witness :
  overviewKeypress
    (mkOverviewState
       (updateAt (fun i => setItemSelected (negb (itemSelected i)) i) 0
          (collectSensitiveFiles Example.tree)) 0)
    KeySpace
  = Continue (mkOverviewState (collectSensitiveFiles Example.tree) 0).
Proof.
  apply (review_toggle_twice (mkOverviewState (collectSensitiveFiles Example.tree) 0)).
  reflexivity.
Defined.

(** ** The classifier *)

Lemma lowerChar_idempotent (c : ascii) : lowerChar (lowerChar c) = lowerChar c.
Proof. destruct c as [[] [] [] [] [] [] [] []]; reflexivity. Qed.

Lemma toLowerCase_idempotent (s : string) : toLowerCase (toLowerCase s) = toLowerCase s.
Proof.
  induction s as [|c s IH]; simpl; [reflexivity|].
  now rewrite lowerChar_idempotent, IH.
Qed.

(** X18.  Classification does not look at letter case: two names that
    are the same once lower-cased get the same verdict, whatever their
    paths, and the same reason; so does a name and its lower-cased form. *)
Theorem classifier_ignores_case (n n' p p' : string) :
  (toLowerCase n = toLowerCase n' ->
   isSensitivePath n p = isSensitivePath n' p' /\
   getSensitiveReason n = getSensitiveReason n') /\
  isSensitivePath (toLowerCase n) p = isSensitivePath n p /\
  getSensitiveReason (toLowerCase n) = getSensitiveReason n.
Proof.
  unfold isSensitivePath, getSensitiveReason. split.
  - intros ->. split; reflexivity.
  - rewrite toLowerCase_idempotent. split; reflexivity.
Qed.

Lemma includes_unfold (s sub : string) :
  includes s sub =
  startsWith s sub ||
  match s with
  | EmptyString => false
  | String _ s' => includes s' sub
  end.
Proof. destruct s; reflexivity. Qed.

Lemma includes_iff (s sub : string) :
  includes s sub = true <-> exists pre post, s = pre ++ sub ++ post.
Proof.
  induction s as [|c s IH]; rewrite includes_unfold, orb_true_iff, startsWith_iff.
  - split.
    + intros [[r Hr]|H]; [|discriminate]. exists "", r. exact Hr.
    + intros [pre [post H]]. left. destruct pre; [now exists post | discriminate].
  - rewrite IH. split.
    + intros [[r Hr]|[pre [post H]]].
      * exists "", r. exact Hr.
      * exists (String c pre), post. simpl. now rewrite H.
    + intros [[|d pre] [post H]].
      * left. now exists post.
      * right. simpl in H. injection H as _ H. now exists pre, post.
Qed.

Lemma includes_weaken (s a b : string) :
  includes s (a ++ b) = true -> includes s a = true.
Proof.
  rewrite !includes_iff. intros [pre [post H]].
  exists pre, (b ++ post). now rewrite H, append_assoc.
Qed.

Lemma startsWith_weaken (s a b : string) :
  startsWith s (a ++ b) = true -> startsWith s a = true.
Proof.
  rewrite !startsWith_iff. intros [r H]. exists (b ++ r). now rewrite H, append_assoc.
Qed.

(** The reason is the fallback only when every test of
    [getSensitiveReason] fails. *)
Lemma fallback_only_when_all_fail (n : string) :
  getSensitiveReason n = fallbackReason ->
  let l := toLowerCase n in
  startsWith l ".env" = false /\
  startsWith l "id_" = false /\
  includes l "secret" = false /\
  includes l "credential" = false /\
  includes l "password" = false /\
  includes l "private" = false /\
  includes l "token" = false /\
  includes l "api_key" = false /\
  includes l "apikey" = false /\
  includes l "history" = false /\
  existsb (fun ext => endsWith l ext) SENSITIVE_EXTENSIONS = false /\
  startsWith l "serviceaccount" = false /\
  existsb (String.eqb l)
    [".ssh"; ".aws"; ".gcp"; ".azure"; ".kube"; ".docker"; ".npmrc"; ".pypirc";
     ".netrc"; ".gitconfig"] = false.
Proof.
  unfold getSensitiveReason, fallbackReason, containsInName, dquote.
  cbv zeta. generalize (toLowerCase n) as l. intros l.
  simpl existsb.
  repeat match goal with
         | |- context [if ?c then _ else _] =>
             let E := fresh "E" in destruct c eqn:E; [intros H; discriminate H|]
         end.
  intros _.
  repeat match goal with
         | H : (_ || _)%bool = false |- _ =>
             apply orb_false_iff in H; destruct H
         end.
  repeat match goal with
         | H : ?x = false |- context [?x] => rewrite H
         end.
  repeat split.
Qed.

(** X19.  An entry the classifier flags always gets a reason of its own:
    the fallback reason is never shown for a sensitive name. *)
Theorem sensitive_name_has_specific_reason (n p : string) :
  isSensitivePath n p = true -> getSensitiveReason n <> fallbackReason.
Proof.
  intros Hs Hf. apply fallback_only_when_all_fail in Hf. cbv zeta in Hf.
  destruct Hf as [Henv [Hid [Hsec [Hcred [Hpw [Hpriv [Htok [Hak [Hapk
                 [Hhist [Hext [Hsa Hexact]]]]]]]]]]]].
  unfold isSensitivePath in Hs. revert Hs.
  set (l := toLowerCase n) in *.
  destruct (matchesExactName l) eqn:E1.
  { intros _. unfold matchesExactName, arrayIncludes in E1.
    apply existsb_exists in E1. destruct E1 as [x [Hx E]].
    apply String.eqb_eq in E. subst x. clearbody l.
    simpl in Hx.
    repeat (destruct Hx as [Hx|Hx];
            [subst l;
             first [discriminate Henv | discriminate Hexact | discriminate Hhist
                   | discriminate Hsec | discriminate Hpriv | discriminate Hcred
                   | discriminate Hpw]|]).
    exact Hx. }
  destruct (matchesEnvFile l) eqn:E2.
  { intros _. unfold matchesEnvFile in E2. apply orb_true_iff in E2.
    destruct E2 as [E2|E2].
    - apply (startsWith_weaken l ".env" ".") in E2. congruence.
    - apply String.eqb_eq in E2. rewrite E2 in Henv. discriminate Henv. }
  destruct (matchesExtension l) eqn:E3.
  { intros _. unfold matchesExtension in E3. congruence. }
  destruct (matchesKeyword l) eqn:E4.
  { intros _. unfold matchesKeyword in E4. simpl in E4.
    rewrite Hsec, Hcred, Hpw, Hak, Hapk, Htok in E4. simpl in E4.
    apply orb_true_iff in E4. destruct E4 as [E4|E4].
    - apply (includes_weaken l "private" "_key") in E4. congruence.
    - rewrite orb_false_r in E4.
      apply (includes_weaken l "private" "key") in E4. congruence. }
  destruct (matchesSshKey l) eqn:E5.
  { intros _. unfold matchesSshKey in E5. rewrite Hid in E5. discriminate E5. }
  destruct (matchesServiceAccountKey l) eqn:E6.
  { intros _. unfold matchesServiceAccountKey in E6.
    apply andb_true_iff in E6. destruct E6 as [E6 _].
    apply (startsWith_weaken l "serviceaccount" "key") in E6. congruence. }
  discriminate.
Qed.

Lemma sensitive_name_has_specific_reason_witness :
  getSensitiveReason "Deploy_Token.txt" <> fallbackReason.
Proof.
  apply (sensitive_name_has_specific_reason "Deploy_Token.txt" "/home/u/Deploy_Token.txt").
  reflexivity.
Defined.

(** ** White space and lines *)

Lemma trimEnd_allWhite (w : string) : allWhite w = true -> trimEnd w = "".
Proof.
  induction w as [|c w IH]; simpl; [reflexivity|].
  intros H. apply andb_true_iff in H. destruct H as [Hc Hw].
  now rewrite (IH Hw), Hc.
Qed.

Lemma trimEnd_nil (s : string) : trimEnd s = "" -> allWhite s = true.
Proof.
  induction s as [|c s IH]; simpl; [reflexivity|].
  destruct (trimEnd s) eqn:E; [|discriminate].
  destruct (isWhite c); [intros _; now rewrite IH | discriminate].
Qed.

Lemma trimStart_allWhite (w : string) : allWhite w = true -> trimStart w = "".
Proof.
  induction w as [|c w IH]; simpl; [reflexivity|].
  intros H. apply andb_true_iff in H. destruct H as [Hc Hw].
  now rewrite Hc, IH.
Qed.

Lemma trimEnd_app_white (y w : string) :
  allWhite w = true -> trimEnd (y ++ w) = trimEnd y.
Proof.
  intros Hw. induction y as [|c y IH]; simpl.
  - now apply trimEnd_allWhite.
  - now rewrite IH.
Qed.

Lemma trim_app_white (x w : string) : allWhite w = true -> trim (x ++ w) = trim x.
Proof.
  intros Hw. unfold trim. induction x as [|c x IH]; simpl.
  - now rewrite (trimStart_allWhite w Hw).
  - destruct (isWhite c); [exact IH|].
    change (String c (x ++ w)) with (String c x ++ w).
    now apply trimEnd_app_white.
Qed.

Lemma trim_allWhite (w : string) : allWhite w = true -> trim w = "".
Proof. intros H. unfold trim. now rewrite (trimStart_allWhite w H). Qed.

Lemma split_allWhite (s : string) :
  allWhite s = true -> Forall (fun l => allWhite l = true) (split LF s).
Proof.
  induction s as [|c s IH]; simpl; [repeat constructor|].
  intros H. apply andb_true_iff in H. destruct H as [Hc Hs].
  specialize (IH Hs). destruct (Ascii.eqb c LF).
  - constructor; [reflexivity | assumption].
  - destruct (split LF s) as [|h t]; [repeat constructor; simpl; now rewrite Hc|].
    inversion IH; subst. constructor; [simpl; now rewrite Hc | assumption].
Qed.

Lemma kept_allWhite (l : list string) :
  Forall (fun x => allWhite x = true) l -> filter keptLine (map trim l) = [].
Proof.
  induction 1 as [|x l Hx _ IH]; [reflexivity|].
  simpl. now rewrite (trim_allWhite x Hx), IH.
Qed.

Lemma split_cons (sep c : ascii) (s : string) :
  split sep (String c s) =
  if Ascii.eqb c sep then "" :: split sep s
  else match split sep s with
       | h :: t => String c h :: t
       | [] => [String c ""]
       end.
Proof. reflexivity. Qed.

(** Trailing white space of a text changes neither the first line, as far
    as trimming sees it, nor what is kept of the other lines. *)
Lemma split_trimEnd (s : string) :
  (forall u, trim (u ++ hd "" (split LF (trimEnd s))) = trim (u ++ hd "" (split LF s))) /\
  filter keptLine (map trim (tl (split LF (trimEnd s))))
  = filter keptLine (map trim (tl (split LF s))).
Proof.
  induction s as [|c s [IHh IHt]]; [split; reflexivity|].
  simpl trimEnd. destruct (trimEnd s) as [|d t0] eqn:Et.
  - pose proof (split_allWhite s (trimEnd_nil s Et)) as Hw.
    pose proof (split_not_nil LF s) as Hne.
    destruct (isWhite c) eqn:Hc.
    + simpl split. destruct (Ascii.eqb c LF).
      * simpl. split; [reflexivity|]. symmetry. now apply kept_allWhite.
      * destruct (split LF s) as [|h t]; [congruence|]. inversion Hw; subst.
        simpl. split.
        -- intros u. rewrite append_nil_r.
           change (u ++ String c h) with (u ++ (String c h)).
           symmetry. apply trim_app_white. simpl. now rewrite Hc.
        -- symmetry. now apply kept_allWhite.
    + assert (Hlf : Ascii.eqb c LF = false).
      { destruct (Ascii.eqb_spec c LF) as [->|]; [discriminate Hc | reflexivity]. }
      simpl split. rewrite Hlf.
      destruct (split LF s) as [|h t]; [congruence|]. inversion Hw; subst.
      simpl. split.
      * intros u.
        replace (u ++ String c h) with ((u ++ String c "") ++ h)
          by (now rewrite append_assoc).
        symmetry. now apply trim_app_white.
      * symmetry. now apply kept_allWhite.
  - pose proof (split_not_nil LF s) as Hne.
    pose proof (split_not_nil LF (String d t0)) as Hne'.
    rewrite (split_cons LF c s), (split_cons LF c (String d t0)).
    destruct (split LF s) as [|h t]; [congruence|].
    destruct (split LF (String d t0)) as [|h' t']; [congruence|].
    simpl hd in IHh. simpl tl in IHt.
    destruct (Ascii.eqb c LF); simpl hd; simpl tl.
    + split; [reflexivity|].
      specialize (IHh ""). simpl in IHh. simpl. now rewrite IHh, IHt.
    + split; [|exact IHt].
      intros u.
      replace (u ++ String c h') with ((u ++ String c "") ++ h')
        by (now rewrite append_assoc).
      replace (u ++ String c h) with ((u ++ String c "") ++ h)
        by (now rewrite append_assoc).
      apply IHh.
Qed.

Lemma parse_eq (content : string) :
  parseClawignore content = filter keptLine (map trim (split LF content)).
Proof. reflexivity. Qed.

Lemma parseExisting_eq (content : string) :
  Writer.parseExistingPatterns content = filter keptLine (map trim (split LF content)).
Proof.
  unfold Writer.parseExistingPatterns. apply filter_ext. intros t. unfold keptLine.
  destruct (truthy t), (startsWith t "#"); reflexivity.
Qed.

Lemma kept_trimEnd (s : string) :
  filter keptLine (map trim (split LF (trimEnd s)))
  = filter keptLine (map trim (split LF s)).
Proof.
  destruct (split_trimEnd s) as [Hh Ht].
  pose proof (split_not_nil LF s) as Hne.
  pose proof (split_not_nil LF (trimEnd s)) as Hne'.
  destruct (split LF s) as [|h t]; [congruence|].
  destruct (split LF (trimEnd s)) as [|h' t']; [congruence|].
  simpl in *. specialize (Hh ""). simpl in Hh. now rewrite Hh, Ht.
Qed.

Lemma unlines_app (a b : list string) : unlines (a ++ b) = unlines a ++ unlines b.
Proof.
  induction a as [|x a IH]; simpl; [reflexivity|].
  now rewrite IH, append_assoc.
Qed.

Lemma split_unlines (l : list string) :
  Forall (fun x => lacks LF x = true) l -> split LF (unlines l) = (l ++ [""])%list.
Proof.
  induction 1 as [|x l Hx _ IH]; [reflexivity|].
  simpl unlines. now rewrite split_app_sep, (split_lacks LF x Hx), IH.
Qed.

Lemma fold_lines (ps : list string) (acc : string) :
  fold_left (fun content pattern => content ++ Writer.lineOf pattern) ps acc
  = acc ++ unlines ps.
Proof.
  revert acc. induction ps as [|p ps IH]; intros acc; simpl.
  - now rewrite append_nil_r.
  - rewrite IH. unfold Writer.lineOf. now rewrite !append_assoc.
Qed.

(** ** The ignore-list writer *)

Lemma split_lacks_all (s : string) : Forall (fun l => lacks LF l = true) (split LF s).
Proof.
  induction s as [|c s IH]; [repeat constructor|].
  rewrite split_cons. destruct (Ascii.eqb c LF) eqn:E.
  - constructor; [reflexivity | assumption].
  - destruct (split LF s) as [|h t]; [repeat constructor; simpl; now rewrite E|].
    inversion IH; subst. constructor; [simpl; now rewrite E | assumption].
Qed.

Lemma lacks_trimStart (sep : ascii) (s : string) :
  lacks sep s = true -> lacks sep (trimStart s) = true.
Proof.
  induction s as [|c s IH]; simpl; [trivial|].
  intros H. destruct (isWhite c); [|exact H].
  apply andb_true_iff in H. now apply IH.
Qed.

Lemma lacks_trimEnd (sep : ascii) (s : string) :
  lacks sep s = true -> lacks sep (trimEnd s) = true.
Proof.
  induction s as [|c s IH]; simpl; [trivial|].
  intros H. apply andb_true_iff in H. destruct H as [Hc Hs].
  specialize (IH Hs). destruct (trimEnd s) as [|d t].
  - destruct (isWhite c); [reflexivity | simpl; now rewrite Hc].
  - simpl in *. now rewrite Hc, IH.
Qed.

Lemma trimEnd_idempotent (s : string) : trimEnd (trimEnd s) = trimEnd s.
Proof.
  induction s as [|c s IH]; simpl; [reflexivity|].
  destruct (trimEnd s) as [|d t] eqn:E.
  - destruct (isWhite c) eqn:Hc; [reflexivity | simpl; now rewrite Hc].
  - change (trimEnd (String c (String d t)))
      with (match trimEnd (String d t) with
            | EmptyString => if isWhite c then EmptyString else String c EmptyString
            | t' => String c t'
            end).
    now rewrite IH.
Qed.

Lemma headNotWhite_trimStart (s : string) : headNotWhite (trimStart s).
Proof.
  induction s as [|c s IH]; simpl; [exact I|].
  destruct (isWhite c) eqn:E; [exact IH | exact E].
Qed.

Lemma trimStart_fixed (s : string) : headNotWhite s -> trimStart s = s.
Proof. destruct s as [|c s]; simpl; [trivial | intros ->; reflexivity]. Qed.

Lemma headNotWhite_trimEnd (s : string) : headNotWhite s -> headNotWhite (trimEnd s).
Proof.
  destruct s as [|c s]; simpl; [trivial|]. intros H.
  destruct (trimEnd s); [rewrite H|]; exact H.
Qed.

Lemma trim_idempotent (s : string) : trim (trim s) = trim s.
Proof.
  unfold trim.
  rewrite (trimStart_fixed (trimEnd (trimStart s)))
    by (apply headNotWhite_trimEnd, headNotWhite_trimStart).
  apply trimEnd_idempotent.
Qed.

(** What a reader returns can be written and read back as it is. *)
Lemma parsed_plain (content : string) :
  Forall plainEntry (filter keptLine (map trim (split LF content))).
Proof.
  apply Forall_forall. intros x Hx. apply filter_In in Hx. destruct Hx as [Hx Hk].
  apply in_map_iff in Hx. destruct Hx as [l [<- Hl]].
  pose proof (split_lacks_all content) as Hall. rewrite Forall_forall in Hall.
  unfold keptLine in Hk. apply andb_true_iff in Hk. destruct Hk as [Ht Hc].
  repeat split.
  - unfold trim. apply lacks_trimEnd, lacks_trimStart. now apply Hall.
  - apply trim_idempotent.
  - intros E. rewrite E in Ht. discriminate Ht.
  - now apply negb_true_iff.
Qed.

Lemma kept_plain (l : list string) :
  Forall plainEntry l -> filter keptLine (map trim l) = l.
Proof. exact (parse_entries l). Qed.

Lemma writer_fold (grouped : Writer.Category -> list string)
  (cats : list Writer.Category) (acc : string) :
  fold_left
    (fun content category =>
       match grouped category with
       | [] => content
       | categoryPatterns =>
           fold_left (fun content pattern => content ++ Writer.lineOf pattern)
             categoryPatterns (content ++ Writer.lineOf (Writer.CATEGORY_COMMENTS category))
           ++ String LF EmptyString
       end)
    cats acc
  = acc ++ unlines (concat (map (blockLines grouped) cats)).
Proof.
  revert acc. induction cats as [|c cats IH]; intros acc; simpl.
  - now rewrite append_nil_r.
  - rewrite IH, unlines_app. unfold blockLines at 2.
    destruct (grouped c) as [|p g]; [reflexivity|].
    rewrite fold_lines. unfold Writer.lineOf.
    change (unlines (Writer.CATEGORY_COMMENTS c :: (p :: g) ++ [""]))
      with (Writer.CATEGORY_COMMENTS c ++ String LF (unlines ((p :: g) ++ [""]))).
    rewrite unlines_app. simpl (unlines [""]).
    repeat (rewrite ?append_assoc; simpl). reflexivity.
Qed.

(** The text the writer writes, by its lines. *)
Lemma writer_content (existing : option string) (patterns : list string) :
  Writer.writeClawignore existing patterns =
  Writer.lineOf
    (trimEnd
       (unlines
          (headerLines ++
           concat
             (map
                (blockLines
                   (Writer.groupPatterns
                      (JsSet.ofList
                         (match existing with
                          | Some content => Writer.parseExistingPatterns content
                          | None => []
                          end ++ patterns))))
                Writer.categories)))).
Proof.
  unfold Writer.writeClawignore. rewrite writer_fold, unlines_app. reflexivity.
Qed.

Lemma kept_blocks (grouped : Writer.Category -> list string)
  (cats : list Writer.Category) :
  (forall c, Forall plainEntry (grouped c)) ->
  filter keptLine (map trim (concat (map (blockLines grouped) cats)))
  = concat (map grouped cats).
Proof.
  intros Hp. induction cats as [|c cats IH]; [reflexivity|].
  simpl. rewrite map_app, filter_app, IH. f_equal.
  unfold blockLines. pose proof (Hp c) as Hc.
  destruct (grouped c) as [|p g]; [reflexivity|].
  change (Writer.CATEGORY_COMMENTS c :: (p :: g) ++ [""])%list
    with ([Writer.CATEGORY_COMMENTS c] ++ (p :: g) ++ [""])%list.
  rewrite !map_app, !filter_app, (kept_plain _ Hc).
  destruct c; simpl; now rewrite app_nil_r.
Qed.

Lemma lacks_blocks (grouped : Writer.Category -> list string)
  (cats : list Writer.Category) :
  (forall c, Forall plainEntry (grouped c)) ->
  Forall (fun x => lacks LF x = true) (concat (map (blockLines grouped) cats)).
Proof.
  intros Hp. induction cats as [|c cats IH]; [constructor|].
  simpl. apply Forall_app. split; [|exact IH].
  unfold blockLines. pose proof (Hp c) as Hc.
  destruct (grouped c) as [|p g]; [constructor|].
  constructor; [destruct c; reflexivity|].
  apply Forall_app. split; [|repeat constructor].
  eapply Forall_impl; [|exact Hc]. intros x Hx. exact (proj1 Hx).
Qed.

Lemma kept_written (grouped : Writer.Category -> list string)
  (cats : list Writer.Category) :
  (forall c, Forall plainEntry (grouped c)) ->
  filter keptLine
    (map trim
       (split LF
          (Writer.lineOf
             (trimEnd (unlines (headerLines ++ concat (map (blockLines grouped) cats)))))))
  = concat (map grouped cats).
Proof.
  intros Hp. unfold Writer.lineOf.
  rewrite split_app_sep, map_app, filter_app, kept_trimEnd.
  rewrite split_unlines
    by (apply Forall_app; split; [repeat constructor | now apply lacks_blocks]).
  rewrite !map_app, !filter_app, (kept_blocks grouped cats Hp).
  simpl. now rewrite !app_nil_r.
Qed.

Lemma group_plain (l : list string) (c : Writer.Category) :
  Forall plainEntry l -> Forall plainEntry (Writer.groupPatterns l c).
Proof.
  intros H. apply Forall_forall. intros x Hx. apply filter_In in Hx.
  rewrite Forall_forall in H. exact (H x (proj1 Hx)).
Qed.

Lemma ofList_plain (l : list string) :
  Forall plainEntry l -> Forall plainEntry (JsSet.ofList l).
Proof.
  intros H. apply Forall_forall. intros x Hx.
  apply (proj1 (In_ofList l x)) in Hx.
  rewrite Forall_forall in H. exact (H x Hx).
Qed.

Lemma merged_plain (existing : option string) (patterns : list string) :
  Forall plainEntry patterns ->
  Forall plainEntry
    (JsSet.ofList
       (match existing with
        | Some content => Writer.parseExistingPatterns content
        | None => []
        end ++ patterns)).
Proof.
  intros Hp. apply ofList_plain, Forall_app. split; [|exact Hp].
  destruct existing as [content|]; [|constructor].
  rewrite parseExisting_eq. apply parsed_plain.
Qed.

(** X20.  What the writer writes reads back, with its own reader and with
    the compiler's, as the patterns of the old file and the new patterns,
    each once, grouped by category in the order of the categories and
    otherwise in their order.  (The new patterns are on one line, without
    white space at the ends, not empty and not comments.) *)
Theorem writer_roundtrip (existing : option string) (patterns : list string) :
  Forall plainEntry patterns ->
  let merged :=
    JsSet.ofList
      (match existing with
       | Some content => Writer.parseExistingPatterns content
       | None => []
       end ++ patterns) in
  Writer.parseExistingPatterns (Writer.writeClawignore existing patterns)
  = concat (map (Writer.groupPatterns merged) Writer.categories) /\
  parseClawignore (Writer.writeClawignore existing patterns)
  = concat (map (Writer.groupPatterns merged) Writer.categories).
Proof.
  intros Hp merged.
  assert (H : filter keptLine
                (map trim (split LF (Writer.writeClawignore existing patterns)))
              = concat (map (Writer.groupPatterns merged) Writer.categories)).
  { rewrite writer_content. apply kept_written.
    intros c. apply group_plain. now apply merged_plain. }
  split; [rewrite parseExisting_eq | rewrite parse_eq]; exact H.
Qed.

Lemma writer_roundtrip_witness :
  Writer.parseExistingPatterns
    (Writer.writeClawignore None ["notes.db"; "/home/u/.ssh"; ".env"; "notes.db"])
  = [".env"; "/home/u/.ssh"; "notes.db"].
Proof.
  exact (proj1 (writer_roundtrip None ["notes.db"; "/home/u/.ssh"; ".env"; "notes.db"]
                  ltac:(repeat constructor; discriminate))).
Defined.

Lemma categoryEqb_eq (a b : Writer.Category) :
  Writer.categoryEqb a b = true <-> a = b.
Proof. destruct a, b; simpl; split; congruence. Qed.

Lemma groupPatterns_cons (x : string) (l : list string) (c : Writer.Category) :
  Writer.groupPatterns (x :: l) c =
  if Writer.categoryEqb (Writer.categorizePattern x) c
  then x :: Writer.groupPatterns l c else Writer.groupPatterns l c.
Proof. reflexivity. Qed.

Lemma perm_app_front {A : Type} (x : A) (g r r' : list A) :
  Permutation r (x :: r') -> Permutation (g ++ r) (x :: g ++ r').
Proof.
  intros H. transitivity (g ++ x :: r')%list.
  - now apply Permutation_app_head.
  - symmetry. apply Permutation_middle.
Qed.

Lemma groups_perm (patterns : list string) :
  Permutation (concat (map (Writer.groupPatterns patterns) Writer.categories)) patterns.
Proof.
  induction patterns as [|x l IH]; [reflexivity|].
  unfold Writer.categories in *. cbn [map concat] in *.
  rewrite !groupPatterns_cons.
  etransitivity; [|apply perm_skip; exact IH].
  destruct (Writer.categorizePattern x); simpl Writer.categoryEqb; cbv iota;
    repeat apply perm_app_front; reflexivity.
Qed.

(** X21.  Grouping loses and repeats nothing: a pattern is in the group
    of its own category and in no other, and the groups, one after the
    other, hold the patterns given, each as often as it was given. *)
Theorem grouping_is_a_partition (patterns : list string) :
  (forall p c, In p (Writer.groupPatterns patterns c) <->
               In p patterns /\ Writer.categorizePattern p = c) /\
  Permutation (concat (map (Writer.groupPatterns patterns) Writer.categories)) patterns.
Proof.
  split.
  - intros p c. unfold Writer.groupPatterns. rewrite filter_In, categoryEqb_eq. tauto.
  - apply groups_perm.
Qed.

Lemma fold_add_fresh (a : list string) (acc : JsSet.t) :
  NoDup (acc ++ a) -> fold_left (fun s x => JsSet.add x s) a acc = (acc ++ a)%list.
Proof.
  revert acc. induction a as [|x a IH]; intros acc H; simpl.
  - now rewrite app_nil_r.
  - assert (Hx : ~ In x acc).
    { apply NoDup_remove_2 in H. intros Hin. apply H. apply in_or_app. now left. }
    unfold JsSet.add at 2. rewrite (proj2 (has_false acc x) Hx).
    rewrite IH; rewrite <- app_assoc; [reflexivity | exact H].
Qed.

Lemma fold_add_present (b : list string) (s : JsSet.t) :
  incl b s -> fold_left (fun s x => JsSet.add x s) b s = s.
Proof.
  induction b as [|x b IH]; intros H; simpl; [reflexivity|].
  unfold JsSet.add at 2.
  rewrite (proj2 (has_In s x) (H x (or_introl eq_refl))).
  apply IH. intros y Hy. apply H. now right.
Qed.

Lemma ofList_absorb (a b : list string) :
  NoDup a -> incl b a -> JsSet.ofList (a ++ b) = a.
Proof.
  intros Ha Hb. unfold JsSet.ofList. rewrite fold_left_app.
  rewrite (fold_add_fresh a []) by exact Ha. simpl. now apply fold_add_present.
Qed.

Lemma group_of_group (l : list string) (c' c : Writer.Category) :
  Writer.groupPatterns (Writer.groupPatterns l c') c =
  if Writer.categoryEqb c' c then Writer.groupPatterns l c' else [].
Proof.
  induction l as [|x l IH].
  - simpl. now destruct (Writer.categoryEqb c' c).
  - rewrite (groupPatterns_cons x l c').
    destruct (Writer.categoryEqb (Writer.categorizePattern x) c') eqn:E.
    + rewrite groupPatterns_cons, IH. apply categoryEqb_eq in E. rewrite E.
      now destruct (Writer.categoryEqb c' c).
    + exact IH.
Qed.

Lemma group_of_groups (l : list string) (c : Writer.Category) :
  Writer.groupPatterns (concat (map (Writer.groupPatterns l) Writer.categories)) c
  = Writer.groupPatterns l c.
Proof.
  unfold Writer.categories. cbn [map concat].
  unfold Writer.groupPatterns at 1. rewrite !filter_app.
  repeat match goal with
         | |- context [filter ?f (Writer.groupPatterns l ?c')] =>
             change (filter f (Writer.groupPatterns l c'))
               with (Writer.groupPatterns (Writer.groupPatterns l c') c);
             rewrite (group_of_group l c' c)
         end.
  destruct c; simpl; now rewrite ?app_nil_r.
Qed.

(** The patterns a written file reads back as. *)
Lemma written_reads_back (existing : option string) (patterns : list string) :
  Forall plainEntry patterns ->
  filter keptLine (map trim (split LF (Writer.writeClawignore existing patterns)))
  = concat
      (map
         (Writer.groupPatterns
            (JsSet.ofList
               (match existing with
                | Some content => Writer.parseExistingPatterns content
                | None => []
                end ++ patterns)))
         Writer.categories).
Proof.
  intros Hp. rewrite writer_content. apply kept_written.
  intros c. apply group_plain. now apply merged_plain.
Qed.

(** X22.  For patterns that are on one line, without white space at the
    ends, not empty and not comments, writing the same patterns a second
    time leaves the file as the first writing made it, byte for byte,
    whatever the file held before the first writing. *)
Theorem writer_idempotent (existing : option string) (patterns : list string) :
  Forall plainEntry patterns ->
  Writer.writeClawignore (Some (Writer.writeClawignore existing patterns)) patterns
  = Writer.writeClawignore existing patterns.
Proof.
  intros Hp.
  rewrite (writer_content (Some (Writer.writeClawignore existing patterns)) patterns).
  rewrite parseExisting_eq, (written_reads_back existing patterns Hp).
  rewrite (writer_content existing patterns).
  set (merged := JsSet.ofList
                   (match existing with
                    | Some content => Writer.parseExistingPatterns content
                    | None => []
                    end ++ patterns)).
  assert (Hnd : NoDup merged) by apply NoDup_ofList.
  rewrite ofList_absorb.
  - do 5 f_equal. apply map_ext. intros c. unfold blockLines.
    now rewrite group_of_groups.
  - eapply Permutation_NoDup; [symmetry; apply groups_perm | exact Hnd].
  - intros p Hin. eapply Permutation_in; [symmetry; apply groups_perm|].
    apply In_ofList. apply in_or_app. now right.
Qed.

Lemma writer_idempotent_witness :
  Writer.writeClawignore
    (Some (Writer.writeClawignore None ["notes.db"; "/home/u/.ssh"; ".env"]))
    ["notes.db"; "/home/u/.ssh"; ".env"]
  = Writer.writeClawignore None ["notes.db"; "/home/u/.ssh"; ".env"].
Proof.
  apply (writer_idempotent None ["notes.db"; "/home/u/.ssh"; ".env"]).
  repeat constructor; discriminate.
Defined.

(** X23.  For patterns that are on one line, without white space at the
    ends, not empty and not comments: [appendToClawignore] writes nothing
    exactly when every pattern is already in the file; when it writes, the
    new file reads back as the old patterns followed by the patterns that
    were not among them, in the order given (a new pattern given twice is
    written twice). *)
Theorem append_adds_missing_patterns (existing : option string) (patterns : list string) :
  Forall plainEntry patterns ->
  let content :=
    match existing with
    | Some content => content
    | None => Writer.HEADER
    end in
  let old := Writer.parseExistingPatterns content in
  (Writer.appendToClawignore existing patterns = None <-> incl patterns old) /\
  forall written,
    Writer.appendToClawignore existing patterns = Some written ->
    Writer.parseExistingPatterns written
    = (old ++ filter (fun p => negb (existsb (String.eqb p) old)) patterns)%list.
Proof.
  intros Hp content old. unfold Writer.appendToClawignore.
  fold content. fold old.
  set (new := filter (fun p => negb (existsb (String.eqb p) old)) patterns).
  assert (Hnew : Forall plainEntry new).
  { apply Forall_forall. intros x Hx. apply filter_In in Hx.
    rewrite Forall_forall in Hp. exact (Hp x (proj1 Hx)). }
  split.
  - assert (Hiff : new = [] <-> incl patterns old).
    { unfold new. split.
      - intros E p Hin.
        destruct (existsb (String.eqb p) old) eqn:Ex.
        + apply existsb_exists in Ex. destruct Ex as [y [Hy Ey]].
          apply String.eqb_eq in Ey. now subst.
        + assert (Hf : In p (filter (fun p => negb (existsb (String.eqb p) old)) patterns)).
          { apply filter_In. split; [assumption | now rewrite Ex]. }
          rewrite E in Hf. destruct Hf.
      - intros Hincl.
        destruct (filter (fun p => negb (existsb (String.eqb p) old)) patterns)
          as [|x l] eqn:E; [reflexivity|].
        assert (Hx : In x (x :: l)) by now left.
        rewrite <- E in Hx. apply filter_In in Hx. destruct Hx as [Hx Hn].
        apply negb_true_iff in Hn.
        assert (existsb (String.eqb x) old = true).
        { apply existsb_exists. exists x. split; [now apply Hincl | apply String.eqb_refl]. }
        congruence. }
    rewrite <- Hiff. destruct new; split; congruence.
  - intros written Hw.
    assert (Hwritten : written
              = trimEnd content
                ++ String LF (unlines ("" :: "# Added by clawignore-setup" :: new))).
    { destruct new as [|x l] eqn:E; [discriminate|]. injection Hw as <-.
      rewrite fold_lines. unfold Writer.lineOf.
      repeat (rewrite ?append_assoc; simpl). reflexivity. }
    rewrite Hwritten, parseExisting_eq, split_app_sep, map_app, filter_app, kept_trimEnd.
    unfold old. rewrite parseExisting_eq. f_equal.
    rewrite split_unlines.
    + change ("" :: "# Added by clawignore-setup" :: new)%list
        with (["" ; "# Added by clawignore-setup"] ++ new)%list.
      rewrite !map_app, !filter_app, (kept_plain new Hnew). simpl.
      now rewrite app_nil_r.
    + repeat constructor.
      eapply Forall_impl; [|exact Hnew]. intros x Hx. exact (proj1 Hx).
Qed.

Lemma append_adds_missing_patterns_witness :
  exists written,
    Writer.appendToClawignore (Some (Writer.writeClawignore None [".env"]))
      [".env"; "notes.db"; "/home/u/.ssh"; "notes.db"]
    = Some written /\
    Writer.parseExistingPatterns written
    = [".env"; "notes.db"; "/home/u/.ssh"; "notes.db"].
Proof.
  eexists. split; [reflexivity|].
  apply (proj2 (append_adds_missing_patterns
                  (Some (Writer.writeClawignore None [".env"]))
                  [".env"; "notes.db"; "/home/u/.ssh"; "notes.db"]
                  ltac:(repeat constructor; discriminate))).
  reflexivity.
Defined.

(** ** The summary after the setup *)




(** ** What Confirm can return *)

Lemma known_paths_list (b : bool) (l : list FileNode) :
  Forall (fun n => forall k, map path (knownNode (setExpandedInNode b k n))
                             = map path (knownNode n)) l ->
  forall k, map path (knownNodes (setExpandedAt b k l)) = map path (knownNodes l).
Proof.
  induction 1 as [|n l Hn _ IH]; intros k; [reflexivity|].
  simpl setExpandedAt. unfold knownNodes in *.
  destruct (k <? List.length (flattenNode n))%nat; simpl flat_map;
    rewrite !map_app; [now rewrite Hn | now rewrite IH].
Qed.

Lemma known_paths_node (b : bool) (n : FileNode) (k : nat) :
  map path (knownNode (setExpandedInNode b k n)) = map path (knownNode n).
Proof.
  revert k. induction n as [n IH] using FileNode_nested_ind. intros [|k].
  - rewrite setExpandedInNode_0, !knownNode_unfold. reflexivity.
  - rewrite setExpandedInNode_S. destruct (children n) as [cs|] eqn:E; [|reflexivity].
    rewrite (knownNode_unfold (withChildren _ n)), (knownNode_unfold n), E.
    simpl. f_equal. apply (known_paths_list b cs (IH cs eq_refl)).
Qed.

Lemma known_paths_tree (b : bool) (k : nat) (l : list FileNode) :
  map path (knownNodes (setExpandedAt b k l)) = map path (knownNodes l).
Proof.
  apply known_paths_list. apply Forall_forall. intros n _ k'. apply known_paths_node.
Qed.

Lemma flatten_known_list (l : list FileNode) :
  Forall (fun n => incl (flattenNode n) (knownNode n)) l ->
  incl (flattenTree l) (knownNodes l).
Proof.
  induction 1 as [|n l Hn _ IH]; intros x Hx; [destruct Hx|].
  rewrite flattenTree_cons in Hx. unfold knownNodes. simpl.
  apply in_app_or in Hx. apply in_or_app.
  destruct Hx as [Hx|Hx]; [left; now apply Hn | right; now apply IH].
Qed.

Lemma flatten_known_node (n : FileNode) : incl (flattenNode n) (knownNode n).
Proof.
  induction n as [n IH] using FileNode_nested_ind. intros x Hx.
  rewrite flattenNode_unfold in Hx. rewrite knownNode_unfold.
  destruct Hx as [<-|Hx]; [now left | right].
  destruct (isDirectory n && expanded n); [|destruct Hx].
  unfold shownChildren in Hx. destruct (children n) as [cs|]; [|destruct Hx].
  exact (flatten_known_list cs (IH cs eq_refl) x Hx).
Qed.

Lemma flatten_known (l : list FileNode) : incl (flattenTree l) (knownNodes l).
Proof.
  apply flatten_known_list. apply Forall_forall. intros n _. apply flatten_known_node.
Qed.

Lemma In_toggleSelection (fl : list FileNode) (node : FileNode) (sel : JsSet.t) (x : string) :
  In x (toggleSelection fl node sel) ->
  In x sel \/ x = path node \/ In x (map path fl).
Proof.
  destruct (in_dec string_dec (path node) sel) as [Hin|Hout].
  - rewrite toggle_deselect by assumption. tauto.
  - rewrite toggle_select by assumption. unfold listedUnder. tauto.
Qed.

Lemma SelectsKnown_step (tree0 : list FileNode) (pre : JsSet.t)
  (st st' : BrowserState) (key : Key) :
  SelectsKnown tree0 pre st -> handleKeypress st key = Continue st' ->
  SelectsKnown tree0 pre st'.
Proof.
  intros [Hflat [Hp [Hnd Hsel]]]. unfold SelectsKnown.
  destruct key; simpl;
    try (destruct (at_cursor (st_flatList st) (st_cursor st)) as [node|] eqn:Hcur;
         [|discriminate]);
    try match goal with
        | |- context [if ?c then _ else _] => destruct c
        end;
    intros E; inversion E; subst; simpl; auto;
    try (split; [reflexivity|]; split; [now rewrite known_paths_tree|]; auto).
  split; [assumption|]. split; [assumption|].
  split; [now apply NoDup_toggleSelection|].
  intros p Hin. apply In_toggleSelection in Hin.
  assert (Hfl : forall q, In q (map path (st_flatList st)) ->
                          In q (map path (knownNodes tree0))).
  { intros q Hq. rewrite <- Hp. apply in_map_iff in Hq.
    destruct Hq as [m [<- Hm]]. apply in_map. apply flatten_known.
    now rewrite <- Hflat. }
  destruct Hin as [Hin|[->|Hin]]; [now apply Hsel | right | right; now apply Hfl].
  apply Hfl. apply in_map.
  destruct (at_cursor_Some _ _ _ Hcur) as [_ Hnth]. eapply nth_error_In. exact Hnth.
Qed.

(** X25.  Whatever keys are pressed, the denied paths the browser returns
    were pre-selected by the review phase or are paths of nodes of the
    tree, and no path is returned twice.  (The pre-selection is a set: it
    holds no path twice.) *)
Theorem confirm_returns_known_paths
  (tree : list FileNode) (pre : JsSet.t) (keys : list Key) (r : BrowseResult) :
  NoDup pre ->
  runKeys (initialState tree pre) keys = Resolve r ->
  NoDup (ignoredPaths r) /\
  forall p, In p (ignoredPaths r) ->
            In p pre \/ In p (map path (knownNodes tree)).
Proof.
  intros Hpre.
  assert (Hk : SelectsKnown tree pre (initialState tree pre)).
  { split; [reflexivity|]. split; [reflexivity|]. split; [exact Hpre|]. now left. }
  revert Hk. generalize (initialState tree pre) as st.
  induction keys as [|key keys IH]; intros st Hk; simpl; [discriminate|].
  destruct (handleKeypress st key) as [st1|r1|] eqn:E; [| |discriminate].
  - apply IH. exact (SelectsKnown_step _ _ _ _ _ Hk E).
  - intros H. injection H as <-. destruct Hk as [_ [_ [Hnd Hsel]]].
    destruct key; simpl in E;
      try (destruct (at_cursor (st_flatList st) (st_cursor st)) as [node|]; [|discriminate]);
      try match type of E with
          | context [if ?c then _ else _] => destruct c
          end;
      try discriminate; injection E as <-; simpl.
    + split; [now apply NoDup_reduceSelection|].
      intros p Hp. apply Hsel. apply In_reduceSelection in Hp. tauto.
    + split; [constructor | intros p []].
Qed.

Lemma confirm_returns_known_paths_witness :
  NoDup (ignoredPaths
           (mkBrowseResult ["/home/u/.aws/credentials"]
              ["/home/u/.aws"; "/home/u/proj"; "/home/u/notes.txt"])) /\
  forall p,
    In p (ignoredPaths
            (mkBrowseResult ["/home/u/.aws/credentials"]
               ["/home/u/.aws"; "/home/u/proj"; "/home/u/notes.txt"])) ->
    In p Example.preSelected \/ In p (map path (knownNodes Example.tree)).
Proof.
  apply (confirm_returns_known_paths Example.tree Example.preSelected
           [KeySpace; KeyReturn]).
  - repeat (constructor; [simpl; intuition discriminate|]). constructor.
  - reflexivity.
Defined.

(** ** What the builder lists *)

Lemma insertSorted_perm {A : Type} (cmp : A -> A -> Z) (x : A) (l : list A) :
  Permutation (insertSorted cmp x l) (x :: l).
Proof.
  induction l as [|y l IH]; simpl; [reflexivity|].
  destruct (cmp x y <=? 0)%Z; [reflexivity|].
  transitivity (y :: x :: l); [now apply perm_skip | apply perm_swap].
Qed.

Lemma sortWith_perm {A : Type} (cmp : A -> A -> Z) (l : list A) :
  Permutation (sortWith cmp l) l.
Proof.
  induction l as [|x l IH]; simpl; [reflexivity|].
  transitivity (x :: sortWith cmp l); [apply insertSorted_perm | now apply perm_skip].
Qed.

Lemma flat_map_kept {A B : Type} (keep : A -> bool) (f : A -> B) (l : list A) :
  flat_map (fun x => if keep x then [f x] else []) l = map f (filter keep l).
Proof.
  induction l as [|x l IH]; simpl; [reflexivity|].
  destruct (keep x); simpl; now rewrite IH.
Qed.

(** X26.  For a directory that can be read, above the depth bound, the
    builder lists every entry the walk does not skip, once, and nothing
    else: the names at the top of the tree are the names of these entries,
    in the order the sort puts them, and the sort only reorders. *)
Theorem builder_lists_unskipped_entries
  (readdir : string -> option (list Dirent)) (localeCompare : string -> string -> Z)
  (pathJoin pathRelative : string -> string -> string)
  (dir rootPath : string) (from maxDepth : nat) (entries : list Dirent) :
  readdir dir = Some entries ->
  from < maxDepth ->
  let tree :=
    buildFileTree readdir localeCompare pathJoin pathRelative dir rootPath from maxDepth in
  map name tree =
    map entryName
      (filter (fun e => negb (skipped from e))
         (sortWith (compareEntries localeCompare) entries)) /\
  map path tree = map (pathJoin dir) (map name tree) /\
  Permutation (map name tree)
    (map entryName (filter (fun e => negb (skipped from e)) entries)).
Proof.
  intros Hread Hlt tree.
  assert (Htree : tree =
            flat_map
              (fun entry =>
                 if negb (skipped from entry) then
                   [ mkFileNode (entryName entry) (pathJoin dir (entryName entry))
                       (if truthy (pathRelative rootPath (pathJoin dir (entryName entry)))
                        then pathRelative rootPath (pathJoin dir (entryName entry))
                        else entryName entry)
                       (entryIsDirectory entry)
                       (if entryIsDirectory entry
                        then Some (buildFileTree readdir localeCompare pathJoin
                                     pathRelative (pathJoin dir (entryName entry))
                                     rootPath (S from) maxDepth)
                        else None)
                       false false from
                       (isSensitivePath (entryName entry)
                          (pathJoin dir (entryName entry))) ]
                 else [])
              (sortWith (compareEntries localeCompare) entries)).
  { unfold tree. rewrite buildFileTree_unfold, Hread.
    destruct (Nat.leb_spec maxDepth from); [lia|].
    apply flat_map_ext. intros e. now destruct (skipped from e). }
  assert (Hnames : map name tree =
            map entryName
              (filter (fun e => negb (skipped from e))
                 (sortWith (compareEntries localeCompare) entries))).
  { rewrite Htree, flat_map_kept, map_map. reflexivity. }
  split; [exact Hnames|]. split.
  - rewrite Htree, flat_map_kept, !map_map. reflexivity.
  - rewrite Hnames, <- !flat_map_kept.
    apply Permutation_flat_map. apply sortWith_perm.
Qed.

Lemma builder_lists_unskipped_entries_witness :
  map name Example.tree =
    map entryName
      (filter (fun e => negb (skipped 0 e))
         (sortWith (compareEntries Example.codeUnitCompare)
            [ mkDirent "notes.txt" false; mkDirent "proj" true; mkDirent ".aws" true;
              mkDirent "Library" true; mkDirent ".zshrc" false ])) /\
  map path Example.tree = map (Example.joinBelow "/home/u") (map name Example.tree) /\
  Permutation (map name Example.tree)
    (map entryName
       (filter (fun e => negb (skipped 0 e))
          [ mkDirent "notes.txt" false; mkDirent "proj" true; mkDirent ".aws" true;
            mkDirent "Library" true; mkDirent ".zshrc" false ])).
Proof.
  apply (builder_lists_unskipped_entries Example.readdir Example.codeUnitCompare
           Example.joinBelow Example.relativeBelow "/home/u" "/home/u" 0 3).
  - reflexivity.
  - lia.
Defined.
